(** * Q-Block Master: the host session of the block puzzle

    A shallow embedding of the session logic of [src/App.tsx] (the React
    component that owns the board, the pool of pieces, the hold slot and
    the score counters) and of the shape catalog of the constants module,
    followed by the properties of the specification that concern them.

    JavaScript numbers are modelled as [Z] (every number the session
    handles is an integer far below 2^53), array indices as [nat], colour
    tokens and identifiers as [string].  Shape objects live in a store of
    references, because the handlers pass them around by reference and one
    of them assigns to a field of a shared object. *)

From Stdlib Require Import ZArith Lia String.
From stdpp Require Import base tactics option list functions fin vector.

Local Open Scope Z_scope.

(** ** Data model ([src/types.ts]) *)

Definition CellColor := option string.
Definition Grid := list (list CellColor).
Definition Matrix := list (list Z).

Record Shape := mkShape {
  id : string;      (* unique ID for React keys *)
  matrix : Matrix;  (* 1 for block, 0 for empty *)
  color : string
}.

(** ** Constants and the shape catalog *)

Definition GRID_SIZE : Z := 8.
Definition COST_ROTATE : Z := 2.

Definition SHAPE_TEMPLATES : vec Matrix 16 :=
  [# (* Dot *)
     [[1]];
     (* Line 2 *)
     [[1; 1]];
     [[1]; [1]];
     (* Line 3 *)
     [[1; 1; 1]];
     [[1]; [1]; [1]];
     (* Line 4 *)
     [[1; 1; 1; 1]];
     [[1]; [1]; [1]; [1]];
     (* Square 2x2 *)
     [[1; 1]; [1; 1]];
     (* Square 3x3 *)
     [[1; 1; 1]; [1; 1; 1]; [1; 1; 1]];
     (* L shapes *)
     [[1; 0]; [1; 0]; [1; 1]];
     [[0; 1]; [0; 1]; [1; 1]];
     [[1; 1; 1]; [1; 0; 0]];
     (* T shapes *)
     [[1; 1; 1]; [0; 1; 0]];
     [[0; 1; 0]; [1; 1; 1]];
     (* Z/S shapes *)
     [[1; 1; 0]; [0; 1; 1]];
     [[0; 1; 1]; [1; 1; 0]] ].

Definition COLORS : vec string 5 :=
  [# "#06b6d4"; "#8b5cf6"; "#f43f5e"; "#10b981"; "#f59e0b" ]%string.

(** One call of [generateRandomShape] consumes three values of
    [Math.random()].  [Math.floor(Math.random() * n)] is an index below
    [n], so the first two are modelled as [fin n]; the third becomes the
    identifier string. *)
Record Draw := mkDraw {
  pick_template : fin 16;
  pick_color : fin 5;
  pick_id : string
}.

Definition generateRandomShape (d : Draw) : Shape :=
  let matrix := SHAPE_TEMPLATES !!! pick_template d in
  let color := COLORS !!! pick_color d in
  {| id := pick_id d;
     matrix := matrix;   (* JSON round trip: a deep copy, the same value *)
     color := color |}.

Definition createEmptyGrid : Grid :=
  replicate (Z.to_nat GRID_SIZE) (replicate (Z.to_nat GRID_SIZE) None).

(** ** Shape matrices *)

Definition binary (m : Matrix) : Prop :=
  Forall (Forall (λ v, v = 0 ∨ v = 1)) m.

Definition rows (m : Matrix) : nat := length m.

Definition cols (m : Matrix) : nat :=
  match m with
  | [] => 0%nat
  | r :: _ => length r
  end.

Definition rectangular (m : Matrix) : Prop :=
  Forall (λ r, length r = cols m) m.

(** A cell is filled when it holds [1] (the test [matrix[y][x] === 1] of
    the preview code). *)
Definition filledCellCount (m : Matrix) : Z :=
  Z.of_nat (length (filter (λ v, v = 1) (concat m))).

(** [piece.matrix.flat().reduce((acc, v) => acc + v, 0)] *)
Definition blockCount (m : Matrix) : Z :=
  foldl Z.add 0 (concat m).

(** The shape invariant with an upper bound [n] on both dimensions. *)
Definition shape_within (n : nat) (m : Matrix) : Prop :=
  binary m ∧ rectangular m ∧ 1 ≤ filledCellCount m ∧
  (1 ≤ rows m ≤ n)%nat ∧ (1 ≤ cols m ≤ n)%nat.

Global Instance binary_dec m : Decision (binary m).
Proof. unfold binary. apply _. Defined.

Global Instance rectangular_dec m : Decision (rectangular m).
Proof. unfold rectangular. apply _. Defined.

Global Instance shape_within_dec n m : Decision (shape_within n m).
Proof. unfold shape_within. apply _. Defined.


(** ** The game-logic services

    [src/App.tsx] imports six functions from [./services/gameLogic].  The
    session handlers below are written against this interface. *)

Record LinesResult := mkLines {
  newGrid : Grid;
  linesCleared : Z
}.

Class GameLogic := {
  canPlacePiece : Grid → Shape → Z → Z → bool;
  placePiece : Grid → Shape → Z → Z → Grid;
  checkLines : Grid → LinesResult;
  checkGameOver : Grid → list Shape → option Shape → bool;
  rotateMatrix : Matrix → Matrix;
  calculateScore : Z → Z → Z
}.

(** ** The store of shape objects

    Shapes are JavaScript objects: the pool array, the hold slot and the
    drag state hold references to them.  [obj] maps a reference to the
    current contents of the object, [limit] is the next unused
    reference. *)

Definition loc := nat.

Record Heap := mkHeap {
  obj : loc → Shape;
  limit : loc
}.

(** What an unused reference reads as. *)
Definition noShape : Shape :=
  {| id := ""%string; matrix := []; color := ""%string |}.

Definition emptyHeap : Heap := {| obj := λ _, noShape; limit := 0%nat |}.

Definition alloc (h : Heap) (v : Shape) : Heap * loc :=
  ({| obj := <[limit h := v]> (obj h); limit := S (limit h) |}, limit h).

Definition store (h : Heap) (l : loc) (v : Shape) : Heap :=
  {| obj := <[l := v]> (obj h); limit := limit h |}.

(** ** Component state ([useState] cells of [App]) *)

Inductive GamePhase := start | playing | gameover.

Global Instance GamePhase_eq_dec : EqDecision GamePhase.
Proof. solve_decision. Defined.

Inductive SourceIndex :=
  | Index (i : nat)   (* index in availablePieces *)
  | Hold.             (* 'hold' *)

Record State := mkState {
  heap : Heap;
  phase : GamePhase;
  grid : Grid;
  availablePieces : list loc;
  holdPiece : option loc;
  selectedPieceIndex : option nat;
  score : Z;
  highScore : Z;
  keys : Z;
  combo : Z
}.

(** The store is not a [useState] cell: [heap] stands for the JavaScript
    heap the handlers allocate in and assign to. *)
Definition withHeap (f : Heap → Heap) (s : State) : State :=
  let 'mkState h ph g ap hp sel sc hs k c := s in
  mkState (f h) ph g ap hp sel sc hs k c.

(** State setters.  [setX(v)] is [setX (λ _, v)]; [setX(prev => e)] applies
    to the pending state, not to the snapshot the handler closed over. *)

Definition setPhase (f : GamePhase → GamePhase) (s : State) : State :=
  let 'mkState h ph g ap hp sel sc hs k c := s in
  mkState h (f ph) g ap hp sel sc hs k c.

Definition setGrid (f : Grid → Grid) (s : State) : State :=
  let 'mkState h ph g ap hp sel sc hs k c := s in
  mkState h ph (f g) ap hp sel sc hs k c.

Definition setAvailablePieces (f : list loc → list loc) (s : State) : State :=
  let 'mkState h ph g ap hp sel sc hs k c := s in
  mkState h ph g (f ap) hp sel sc hs k c.

Definition setHoldPiece (f : option loc → option loc) (s : State) : State :=
  let 'mkState h ph g ap hp sel sc hs k c := s in
  mkState h ph g ap (f hp) sel sc hs k c.

Definition setSelectedPieceIndex (f : option nat → option nat) (s : State) : State :=
  let 'mkState h ph g ap hp sel sc hs k c := s in
  mkState h ph g ap hp (f sel) sc hs k c.

Definition setScore (f : Z → Z) (s : State) : State :=
  let 'mkState h ph g ap hp sel sc hs k c := s in
  mkState h ph g ap hp sel (f sc) hs k c.

Definition setHighScore (f : Z → Z) (s : State) : State :=
  let 'mkState h ph g ap hp sel sc hs k c := s in
  mkState h ph g ap hp sel sc (f hs) k c.

Definition setKeys (f : Z → Z) (s : State) : State :=
  let 'mkState h ph g ap hp sel sc hs k c := s in
  mkState h ph g ap hp sel sc hs (f k) c.

Definition setCombo (f : Z → Z) (s : State) : State :=
  let 'mkState h ph g ap hp sel sc hs k c := s in
  mkState h ph g ap hp sel sc hs k (f c).

Definition deref (s : State) (l : loc) : Shape := obj (heap s) l.

(** The state of the first render; [stored] is the high score read from
    local storage by the mount effect, when there is one. *)
Definition initialState (stored : option Z) : State :=
  {| heap := emptyHeap;
     phase := start;
     grid := createEmptyGrid;
     availablePieces := [];
     holdPiece := None;
     selectedPieceIndex := None;
     score := 0;
     highScore := default 0 stored;
     keys := 0;
     combo := 1 |}.

(** What one evaluation of [checkGameOver] was given. *)
Record GameOverCheck := mkCheck {
  checkedGrid : Grid;
  checkedPieces : list Shape;
  checkedHold : option Shape
}.

(** The callback [spawnPieces] hands to [setTimeout]: the variables it
    closed over. *)
Record Timer := mkTimer {
  timerGrid : Grid;
  timerPieces : list loc;
  timerHold : option loc
}.

Definition Draws : Type := Draw * Draw * Draw.

Record DragState := mkDrag {
  piece : loc;
  sourceIndex : SourceIndex
}.

(** Where the pointer is, as far as the handlers care: the grid cell
    computed from its position when it is inside the board rectangle, and
    whether it is inside the rectangle of the hold button. *)
Record Pointer := mkPointer {
  overGrid : option (Z * Z);
  overHold : bool
}.

Record DropTarget := mkTarget {
  dropPreview : option (Z * Z);
  isHoveringHold : bool
}.

(** [arr[i] = v] on an array of references.  Writing at [length arr]
    appends; writing further out would leave holes, which an array of
    shapes cannot hold and which no caller of the handlers asks for:
    that case is [None]. *)
Definition arrayStore {A} (i : nat) (v : A) (arr : list A) : option (list A) :=
  if (i <? length arr)%nat then Some (<[i := v]> arr)
  else if (i =? length arr)%nat then Some (arr ++ [v])
  else None.

(** ** The handlers of [App]

    A handler closes over the state of the render that created it (the
    snapshot [s]); [setX] calls queue updates, collected here in a pending
    state.  The handler's result is the state of the next render together
    with the game-over evaluations it made.  The 100 ms timer of
    [spawnPieces] is fired at the end of the handler that set it, before
    any other event. *)

Section Session.
Context `{GameLogic}.

Definition spawnPieces (s : State) (d : Draws) (st : State) : State * Timer :=
  let '(d1, d2, d3) := d in
  let '(h1, l1) := alloc (heap st) (generateRandomShape d1) in
  let '(h2, l2) := alloc h1 (generateRandomShape d2) in
  let '(h3, l3) := alloc h2 (generateRandomShape d3) in
  let newPieces := [l1; l2; l3] in
  let st := withHeap (λ _, h3) st in
  let st := setAvailablePieces (λ _, newPieces) st in
  let st := setSelectedPieceIndex (λ _, None) st in
  (* Check game over immediately after spawn *)
  (st, mkTimer (grid s) newPieces (holdPiece s)).

Definition fireTimer (t : Timer) (st : State) : State * GameOverCheck :=
  let c := mkCheck (timerGrid t) (deref st <$> timerPieces t)
                   (deref st <$> timerHold t) in
  (if checkGameOver (checkedGrid c) (checkedPieces c) (checkedHold c)
   then setPhase (λ _, gameover) st else st, c).

Definition startGame (s : State) (d : Draws) : State * list GameOverCheck :=
  let st := setGrid (λ _, createEmptyGrid) s in
  let st := setScore (λ _, 0) st in
  let st := setKeys (λ _, 3) st in   (* Start with 3 bonus keys *)
  let st := setCombo (λ _, 1) st in
  let st := setHoldPiece (λ _, None) st in
  let '(st, t) := spawnPieces s d st in
  let st := setPhase (λ _, playing) st in
  let '(st, c) := fireTimer t st in
  (st, [c]).

Definition handlePlacePiece (s : State) (piece : loc) (x y : Z)
    (sourceIndex : SourceIndex) (d : Draws) : State * list GameOverCheck :=
  let p := deref s piece in
  (* 1. Place Piece *)
  let nextGrid := placePiece (grid s) p x y in
  (* 2. Score Placement *)
  let turnPoints := blockCount (matrix p) * 10 in
  (* 3. Check Lines *)
  let clearedGrid := newGrid (checkLines nextGrid) in
  let linesCleared := linesCleared (checkLines nextGrid) in
  (* 4. Handle Combo & Bonuses *)
  let '(turnPoints, st) :=
    if 0 <? linesCleared then
      let lineScore := calculateScore linesCleared (combo s) in
      let earnedKeys := linesCleared in
      let st := setKeys (λ k, k + earnedKeys) s in
      let st := setCombo (λ c, c + 1) st in
      (turnPoints + lineScore, st)
    else
      (turnPoints, setCombo (λ _, 1) s) in
  let newScore := score st + turnPoints in
  let st := if highScore s <? newScore
            then setHighScore (λ _, newScore) st else st in
  let st := setScore (λ _, newScore) st in
  let st := setGrid (λ _, clearedGrid) st in
  (* 5. Remove from Source *)
  match sourceIndex with
  | Hold => (setHoldPiece (λ _, None) st, [])
  | Index i =>
      (* the source also builds [newAvailable] and [remaining] here and
         never reads them *)
      let filtered := delete i (availablePieces s) in
      if (length filtered =? 0)%nat then
        let '(st, t) := spawnPieces s d st in
        let '(st, c) := fireTimer t st in
        (st, [c])
      else
        let st := setAvailablePieces (λ _, filtered) st in
        let st := setSelectedPieceIndex (λ _, None) st in
        (* Check Game Over *)
        let c := mkCheck clearedGrid (deref st <$> filtered)
                         (deref st <$> holdPiece s) in
        (if checkGameOver (checkedGrid c) (checkedPieces c) (checkedHold c)
         then setPhase (λ _, gameover) st else st, [c])
  end.

Definition handleHoldDrop (s : State) (piece : loc)
    (sourceIndex : SourceIndex) (d : Draws)
    : option (State * list GameOverCheck) :=
  match sourceIndex with
  | Hold => Some (s, [])   (* Already in hold *)
  | Index i =>
      let currentHold := holdPiece s in
      let st := setHoldPiece (λ _, Some piece) s in
      match currentHold with
      | Some h =>
          (* Swap: Put old hold back into available slots *)
          newAvailable ← arrayStore i h (availablePieces s);
          let st := setAvailablePieces (λ _, newAvailable) st in
          Some (setSelectedPieceIndex (λ _, None) st, [])
      | None =>
          (* Remove from available *)
          let newAvailable := delete i (availablePieces s) in
          if (length newAvailable =? 0)%nat then
            let '(st, t) := spawnPieces s d st in
            let st := setSelectedPieceIndex (λ _, None) st in
            let '(st, c) := fireTimer t st in
            Some (st, [c])
          else
            let st := setAvailablePieces (λ _, newAvailable) st in
            Some (setSelectedPieceIndex (λ _, None) st, [])
      end
  end.

(** [None]: [availablePieces[selectedPieceIndex]] is [undefined]. *)
Definition handleHoldButton (s : State) (d : Draws)
    : option (State * list GameOverCheck) :=
  match selectedPieceIndex s with
  | None => Some (s, [])
  | Some i =>
      piece ← availablePieces s !! i;
      handleHoldDrop s piece (Index i) d
  end.

(** [None]: the handler throws a [TypeError] ([piece] is [undefined]
    when the selected index is not a slot of the pool). *)
Definition handleRotate (s : State) : option State :=
  match selectedPieceIndex s with
  | None => Some s
  | Some i =>
      if keys s <? COST_ROTATE then Some s
      else
        let newPieces := availablePieces s in   (* [...availablePieces] *)
        piece ← newPieces !! i;
        let p := deref s piece in
        (* piece.matrix = rotateMatrix(piece.matrix) *)
        let st := withHeap (λ h, store h piece
                    {| id := id p; matrix := rotateMatrix (matrix p);
                       color := color p |}) s in
        let st := setAvailablePieces (λ _, newPieces) st in
        Some (setKeys (λ prev, prev - COST_ROTATE) st)
  end.

Definition handleRotateHold (s : State) : State :=
  match holdPiece s with
  | None => s
  | Some l =>
      if keys s <? COST_ROTATE then s
      else
        let p := deref s l in
        (* newHold = { ...holdPiece }; newHold.matrix = rotateMatrix(...) *)
        let '(h, newHold) := alloc (heap s)
                    {| id := id p; matrix := rotateMatrix (matrix p);
                       color := color p |} in
        let st := withHeap (λ _, h) s in
        let st := setHoldPiece (λ _, Some newHold) st in
        setKeys (λ prev, prev - COST_ROTATE) st
  end.

(** *** Drag and drop *)

Definition handleDragStart (s : State) (piece : loc)
    (sourceIndex : SourceIndex) : State * option DragState :=
  match phase s with
  | playing =>
      (* Deep copy to avoid mutating source during render *)
      let '(h, copy) := alloc (heap s) (deref s piece) in
      let st := withHeap (λ _, h) s in
      let st := setSelectedPieceIndex
                  (λ _, match sourceIndex with
                        | Index i => Some i
                        | Hold => None
                        end) st in
      (st, Some (mkDrag copy sourceIndex))
  | _ => (s, None)
  end.

Definition handlePointerMove (s : State) (ds : DragState) (e : Pointer)
    : DropTarget :=
  let elsewhere :=
    if overHold e then mkTarget None true else mkTarget None false in
  match overGrid e with
  | Some (gx, gy) =>
      if (-2 <=? gx) && (gx <? GRID_SIZE) && (-2 <=? gy) && (gy <? GRID_SIZE)
         && canPlacePiece (grid s) (deref s (piece ds)) gx gy
      then mkTarget (Some (gx, gy)) false
      else elsewhere
  | None => elsewhere
  end.

Definition handlePointerUp (s : State) (ds : DragState) (t : DropTarget)
    (d : Draws) : option (State * list GameOverCheck) :=
  match dropPreview t with
  | Some (x, y) =>
      (* Attempt Drop on Grid *)
      Some (handlePlacePiece s (piece ds) x y (sourceIndex ds) d)
  | None =>
      (* Attempt Drop on Hold *)
      if isHoveringHold t then handleHoldDrop s (piece ds) (sourceIndex ds) d
      else Some (s, [])
  end.

(** *** Host events

    One event is one user action, run to completion against the current
    render: a click on a button, or a whole drag gesture (pointer down
    on a rendered piece, pointer moves, pointer up). *)

Inductive Event :=
  | StartGame (d : Draws)
  | Drag (src : SourceIndex) (moves : list Pointer) (d : Draws)
  | HoldButton (d : Draws)
  | Rotate
  | RotateHold
  | BackToMenu.

(** The piece rendered in slot [src], if any. *)
Definition rendered (s : State) (src : SourceIndex) : option loc :=
  match src with
  | Index i => availablePieces s !! i
  | Hold => holdPiece s
  end.

(** The drop target after the pointer moves of a gesture: every move
    overwrites both the preview and the hover flag. *)
Definition dropTarget (s : State) (ds : DragState) (moves : list Pointer)
    : DropTarget :=
  foldl (λ _ e, handlePointerMove s ds e) (mkTarget None false) moves.

Definition perform (s : State) (e : Event)
    : option (State * list GameOverCheck) :=
  match e with
  | StartGame d => Some (startGame s d)
  | Drag src moves d =>
      l ← rendered s src;
      match handleDragStart s l src with
      | (s1, Some ds) => handlePointerUp s1 ds (dropTarget s1 ds moves) d
      | (s1, None) => Some (s1, [])
      end
  | HoldButton d => handleHoldButton s d
  | Rotate => s' ← handleRotate s; Some (s', [])
  | RotateHold => Some (handleRotateHold s, [])
  | BackToMenu => Some (setPhase (λ _, start) s, [])
  end.

(** States a session can be in. *)
Inductive reachable : State → Prop :=
  | reachable_mount stored :
      (∀ v, stored = Some v → 0 ≤ v) → reachable (initialState stored)
  | reachable_event s e s' cs :
      reachable s → perform s e = Some (s', cs) → reachable s'.

(** The number of lines the placement of [piece] at (x, y) clears. *)
Definition placedLines (s : State) (piece : loc) (x y : Z) : Z :=
  linesCleared (checkLines (placePiece (grid s) (deref s piece) x y)).

(** The board after the placement of [piece] at (x, y) and line
    clearing. *)
Definition placedGrid (s : State) (piece : loc) (x y : Z) : Grid :=
  newGrid (checkLines (placePiece (grid s) (deref s piece) x y)).

(** A sequence of events, run from [s]. *)
Fixpoint run (s : State) (es : list Event) : option State :=
  match es with
  | [] => Some s
  | e :: es => r ← perform s e; run r.1 es
  end.

End Session.

(** ** A reference game logic

    The module [./services/gameLogic] is not among the sources.  The
    handlers above are stated against the interface [GameLogic]; to run
    them on concrete boards this module supplies one implementation,
    written from section 4 of the specification. *)

Module Spec.

(** Modelled from the spec: the cell of the grid at column [x], row [y],
    when both are inside the matrix ([canPlace], section 4.1; the gameLogic
    module is missing). *)
Definition cellAt (g : Grid) (x y : Z) : option CellColor :=
  if (0 <=? x) && (0 <=? y) then g !! Z.to_nat y ≫= (.!! Z.to_nat x) else None.

(** Modelled from the spec: the filled cells (dx, dy) of an occupancy
    matrix (section 3, Shape; the gameLogic module is missing). *)
Definition filledCells (m : Matrix) : list (Z * Z) :=
  concat (imap (λ dy row,
    omap (λ '(dx, v), if bool_decide (v = 1)
                      then Some (Z.of_nat dx, Z.of_nat dy) else None)
         (imap pair row)) m).

(** Modelled from the spec: [canPlace] of section 4.1 (the missing
    gameLogic function [canPlacePiece]): every filled cell must land
    inside the N x N board on an empty cell. *)
Definition canPlace (g : Grid) (shape : Shape) (originX originY : Z) : bool :=
  forallb (λ '(dx, dy),
      let x := originX + dx in
      let y := originY + dy in
      (0 <=? x) && (x <? GRID_SIZE) && (0 <=? y) && (y <? GRID_SIZE) &&
      match cellAt g x y with
      | Some None => true
      | _ => false
      end)
    (filledCells (matrix shape)).

(** Modelled from the spec: [applyPlacement] of section 4.1 (the missing
    gameLogic function [placePiece]): a new grid with every filled shape
    cell set to the colour of the shape. *)
Definition applyPlacement (g : Grid) (shape : Shape) (originX originY : Z)
    : Grid :=
  imap (λ y row,
    imap (λ x c,
      if bool_decide ((Z.of_nat x - originX, Z.of_nat y - originY)
                        ∈ filledCells (matrix shape))
      then Some (color shape) else c) row) g.

(** Modelled from the spec: a line is complete iff all its cells are
    non-empty (section 4.1; the gameLogic module is missing). *)
Definition rowComplete (row : list CellColor) : bool :=
  forallb (λ c, match c with Some _ => true | None => false end) row.

(** Modelled from the spec: completeness of column [x] (section 4.1; the
    gameLogic module is missing). *)
Definition colComplete (g : Grid) (x : nat) : bool :=
  forallb (λ row, match row !! x with
                  | Some (Some _) => true
                  | _ => false
                  end) g.

(** Modelled from the spec: [clearCompletedLines] of section 4.1 (the
    missing gameLogic function [checkLines]): completeness of all rows and
    columns is read off the grid before clearing, every cell of a complete
    line is emptied, and the count is rows plus columns. *)
Definition clearCompletedLines (g : Grid) : LinesResult :=
  let fullRows := rowComplete <$> g in
  let fullCols := colComplete g <$> seq 0 (Z.to_nat GRID_SIZE) in
  {| newGrid :=
       imap (λ y row,
         imap (λ x c,
           if default false (fullRows !! y) || default false (fullCols !! x)
           then None else c) row) g;
     linesCleared :=
       Z.of_nat (length (filter (λ b, b = true) fullRows)
                 + length (filter (λ b, b = true) fullCols)) |}.

(** Modelled from the spec: [rotate] of section 4.2 (the missing
    gameLogic function [rotateMatrix]): a 90 degree clockwise rotation,
    the output has the transposed dimensions. *)
Definition rotate (m : Matrix) : Matrix :=
  imap (λ i _, reverse ((λ row, default 0 (row !! i)) <$> m))
       (default [] (head m)).

(** Modelled from the spec: the four rotations of a candidate (section
    4.4; the gameLogic module is missing). *)
Definition rotations (shape : Shape) : list Shape :=
  (λ m, {| id := id shape; matrix := m; color := color shape |}) <$>
  [ matrix shape;
    rotate (matrix shape);
    rotate (rotate (matrix shape));
    rotate (rotate (rotate (matrix shape))) ].

(** Modelled from the spec: every origin of the N x N coordinate space
    (section 4.4; the gameLogic module is missing). *)
Definition origins : list (Z * Z) :=
  x ← seq 0 (Z.to_nat GRID_SIZE);
  y ← seq 0 (Z.to_nat GRID_SIZE);
  [(Z.of_nat x, Z.of_nat y)].

(** Modelled from the spec: [isGameOver] of section 4.4 (the missing
    gameLogic function [checkGameOver]): the game ends iff no candidate,
    pool shapes and the hold piece if present, fits anywhere in any
    rotation. *)
Definition isGameOver (g : Grid) (pool : list Shape) (holdPiece : option Shape)
    : bool :=
  negb (existsb (λ shape,
          existsb (λ r,
            existsb (λ '(x, y), canPlace g r x y) origins) (rotations shape))
        (pool ++ option_list holdPiece)).

(** Modelled from the spec: [lineClearScore] of section 4.3 (the missing
    gameLogic function [calculateScore]): 0 without a cleared line,
    otherwise [base linesCleared * combo]; the reward table [base] is a
    tunable parameter. *)
Definition lineClearScore (base : Z → Z) (linesCleared combo : Z) : Z :=
  if linesCleared =? 0 then 0 else base linesCleared * combo.

(** Modelled from the spec: the six services together, for a reward
    table [base] (the gameLogic module is missing). *)
Definition logic (base : Z → Z) : GameLogic :=
  {| canPlacePiece := canPlace;
     placePiece := applyPlacement;
     checkLines := clearCompletedLines;
     checkGameOver := isGameOver;
     rotateMatrix := rotate;
     calculateScore := lineClearScore base |}.

End Spec.

(** ** Invariants of a session *)

(** Section 3, session state: score non-negative and at most the high
    score, keys non-negative, combo at least 1. *)
Definition sessionInv (s : State) : Prop :=
  0 ≤ score s ∧ score s ≤ highScore s ∧ 0 ≤ keys s ∧ 1 ≤ combo s.

(** Every shape object holds a binary matrix. *)
Definition heapInv (s : State) : Prop :=
  ∀ l, binary (matrix (deref s l)).

(** The selected index, when there is one, is a slot of the pool. *)
Definition selectionInv (s : State) : Prop :=
  ∀ i, selectedPieceIndex s = Some i → (i < length (availablePieces s))%nat.

(** The pool of [s'] is a batch of three shapes drawn by [d] into
    references that were unused in [s]. *)
Definition freshBatch (s s' : State) (d : Draws) : Prop :=
  let n := limit (heap s) in
  availablePieces s' = [n; S n; S (S n)] ∧
  deref s' <$> availablePieces s' =
    [generateRandomShape d.1.1; generateRandomShape d.1.2;
     generateRandomShape d.2].

(** ** References in use, and what a handler leaves alone *)

(** The references the state holds: the pool, then the hold slot. *)
Definition liveRefs (s : State) : list loc :=
  availablePieces s ++ option_list (holdPiece s).

(** No two of [l] are the same reference, and all are below [n]. *)
Definition okRefs (n : nat) (l : list loc) : Prop :=
  NoDup l ∧ Forall (λ r, (r < n)%nat) l.

(** No shape object is both in two slots of the pool, or in the pool and
    in the hold slot; every reference held was allocated. *)
Definition refsInv (s : State) : Prop :=
  NoDup (liveRefs s) ∧ Forall (λ l, (l < limit (heap s))%nat) (liveRefs s).

(** [s'] has every object of [s], unchanged. *)
Definition heapExtends (s s' : State) : Prop :=
  (limit (heap s) ≤ limit (heap s'))%nat ∧
  ∀ l, (l < limit (heap s))%nat → deref s' l = deref s l.


(** The three shapes of a batch. *)
Definition batchOf (d : Draws) : list Shape :=
  [generateRandomShape d.1.1; generateRandomShape d.1.2;
   generateRandomShape d.2].

(** ** The render of the board *)

(** [getPreviewCells]: the board cells the dragged piece would cover at
    the previewed origin, in the order the two loops push them (a cell is
    the pair of its [x] and its [y]). *)
Definition getPreviewCells (s : State) (dragState : option DragState)
    (dropPreview : option (Z * Z)) : list (Z * Z) :=
  match dropPreview, dragState with
  | Some (px, py), Some ds =>
      let piece := deref s (piece ds) in
      concat (imap (λ y row,
        concat (imap (λ x v,
          if decide (v = 1)
          then [(px + Z.of_nat x, py + Z.of_nat y)]
          else []) row)) (matrix piece))
  | _, _ => []
  end.

(** What the render passes to one [GridCell].  [cellColor] is [None] where
    the row [grid[y]] has no cell [x] ([undefined] in the source). *)
Record CellView := mkCell {
  cellColor : option CellColor;
  isValidDrop : bool
}.

(** The board of the render: one [GridCell] per index below
    [GRID_SIZE * GRID_SIZE], at column [i % GRID_SIZE] and row
    [floor(i / GRID_SIZE)].  [None] is the exception of [grid[y][x]] on a
    missing row. *)
Definition boardCells (s : State) (previewCells : list (Z * Z)) :
    option (list CellView) :=
  mapM (λ i,
     let x := (i mod Z.to_nat GRID_SIZE)%nat in
     let y := (i / Z.to_nat GRID_SIZE)%nat in
     let isPreview :=
       existsb (λ p, (p.1 =? Z.of_nat x) && (p.2 =? Z.of_nat y)) previewCells in
     row ← grid s !! y;
     Some (mkCell (row !! x) isPreview))
  (seq 0 (Z.to_nat (GRID_SIZE * GRID_SIZE))).

(** The column and row of board index [i]. *)
Definition cellOfIndex (i : nat) : Z * Z :=
  (Z.of_nat (i mod Z.to_nat GRID_SIZE), Z.of_nat (i / Z.to_nat GRID_SIZE)).

(** ** Outcomes of an event *)

Section Outcomes.
Context `{GameLogic}.

(** What a gesture on a rendered piece amounts to. *)
Inductive GestureOutcome (s : State) (src : SourceIndex) (moves : list Pointer)
    (d : Draws) (s' : State) (cs : list GameOverCheck) : Prop :=
  | gesture_ignored :
      phase s ≠ playing → s' = s → cs = [] →
      GestureOutcome s src moves d s' cs
  | gesture_placed l s1 ds x y :
      rendered s src = Some l →
      handleDragStart s l src = (s1, Some ds) →
      dropPreview (dropTarget s1 ds moves) = Some (x, y) →
      (s', cs) = handlePlacePiece s1 (piece ds) x y src d →
      GestureOutcome s src moves d s' cs
  | gesture_held l s1 ds :
      rendered s src = Some l →
      handleDragStart s l src = (s1, Some ds) →
      dropPreview (dropTarget s1 ds moves) = None →
      isHoveringHold (dropTarget s1 ds moves) = true →
      handleHoldDrop s1 (piece ds) src d = Some (s', cs) →
      GestureOutcome s src moves d s' cs
  | gesture_cancelled l s1 ds :
      rendered s src = Some l →
      handleDragStart s l src = (s1, Some ds) →
      dropPreview (dropTarget s1 ds moves) = None →
      isHoveringHold (dropTarget s1 ds moves) = false →
      s' = s1 → cs = [] →
      GestureOutcome s src moves d s' cs.


(** What [checkGameOver] answers to an evaluation. *)
Definition verdict (c : GameOverCheck) : bool :=
  checkGameOver (checkedGrid c) (checkedPieces c) (checkedHold c).

(** A handler makes no evaluation and leaves the phase at [base], or makes
    one and sets the phase by it. *)
Definition phaseOutcome (base : GamePhase) (s' : State)
    (cs : list GameOverCheck) : Prop :=
  (cs = [] ∧ phase s' = base) ∨
  (∃ c, cs = [c] ∧ phase s' = if verdict c then gameover else base).

End Outcomes.

(** ** Tactics *)

(** A handler that only allocates leaves the objects it found. *)
Ltac heap_frame :=
  unfold heapExtends, deref; cbn; split; [lia |];
  intros ? ?; unfold insert, fn_insert;
  repeat (case_decide; [lia |]); reflexivity.

(** ** A sample session

    Concrete draws and gestures, to run the handlers on: the first batch
    is two horizontal "Line 4" pieces and a dot; the two lines are dropped
    side by side on the top row, which clears it. *)

(** A sample reward table (the specification leaves the table open):
    100 points per cleared line. *)
Definition rewardTable (l : Z) : Z := 100 * l.

(** The reference logic with the sample table. *)
Definition refLogic : GameLogic := Spec.logic rewardTable.

Definition draw (t : fin 16) (n : string) : Draw := mkDraw t 0%fin n.

Definition atCell (x y : Z) : Pointer := mkPointer (Some (x, y)) false.

Definition atHold : Pointer := mkPointer None true.

Definition firstBatch : Draws :=
  (draw 5%fin "a", draw 5%fin "b", draw 0%fin "c").

Definition nextBatch : Draws :=
  (draw 9%fin "d", draw 1%fin "e", draw 2%fin "f").

Definition afterEvents (es : list Event) : State :=
  default (initialState None) (@run refLogic (initialState None) es).

(** The pool holds its three pieces; slot 0 was picked up and let go. *)
Definition selectedState : State := Eval vm_compute in
  afterEvents [StartGame firstBatch; Drag (Index 0) [] nextBatch].

(** The first piece was moved to the hold slot. *)
Definition holdingState : State := Eval vm_compute in
  afterEvents [StartGame firstBatch; Drag (Index 0) [atHold] nextBatch].

(** Both lines were placed and the top row cleared: the board is empty
    again and the dot is the last piece of the pool. *)
Definition lastPieceState : State := Eval vm_compute in
  afterEvents [StartGame firstBatch;
               Drag (Index 0) [atCell 0 0] nextBatch;
               Drag (Index 0) [atCell 4 0] nextBatch].

(** One line was placed, the other moved to the hold slot. *)
Definition heldLineState : State := Eval vm_compute in
  afterEvents [StartGame firstBatch;
               Drag (Index 0) [atCell 0 0] nextBatch;
               Drag (Index 0) [atHold] nextBatch].

(** * Properties *)

(** ** The shape catalog *)

Lemma all_templates_within_4 :
  Forall (shape_within 4) (vec_to_list SHAPE_TEMPLATES).
Proof. apply (bool_decide_unpack _). vm_compute. reflexivity. Qed.

Lemma generateRandomShape_facts (d : Draw) :
  shape_within 4 (matrix (generateRandomShape d)).
Proof.
  unfold generateRandomShape; simpl.
  pose proof all_templates_within_4 as Hall.
  rewrite Forall_vlookup in Hall. apply Hall.
Qed.

Lemma generated_binary d : binary (matrix (generateRandomShape d)).
Proof. apply generateRandomShape_facts. Qed.

(** C4, as amended: every shape drawn by the catalog has a binary,
    rectangular matrix with at least one filled cell, and between 1 and 4
    rows and between 1 and 4 columns (the two "Line 4" templates are 1x4
    and 4x1). *)
Theorem generateRandomShape_within_4 (d : Draw) :
  let m := matrix (generateRandomShape d) in
  binary m ∧ rectangular m ∧ 1 ≤ filledCellCount m ∧
  (1 ≤ rows m ≤ 4)%nat ∧ (1 ≤ cols m ≤ 4)%nat.
Proof.
  intros m. subst m.
  destruct (generateRandomShape_facts d) as (Hb & Hr & Hf & Hrows & Hcols).
  repeat split; first [assumption | lia].
Qed.

(** C4, as stated, fails: the sixth template, "Line 4", is one row of
    four columns, so a drawn shape need not fit in 3x3. *)
Lemma generateRandomShape_not_within_3 :
  let m := matrix (generateRandomShape (mkDraw 5%fin 0%fin "a")) in
  cols m = 4%nat ∧ ¬ shape_within 3 m.
Proof.
  split; [reflexivity |].
  intros (_ & _ & _ & _ & Hc). vm_compute in Hc. lia.
Qed.

(** ** Counting blocks *)

Lemma foldl_add_binary acc (l : list Z) :
  Forall (λ v, v = 0 ∨ v = 1) l →
  foldl Z.add acc l = acc + Z.of_nat (length (filter (λ v, v = 1) l)).
Proof.
  intros Hl. revert acc. induction Hl as [|v l Hv _ IH]; intros acc; simpl.
  - lia.
  - rewrite IH. destruct Hv as [-> | ->].
    + rewrite filter_cons_False by lia. lia.
    + rewrite filter_cons_True by reflexivity. simpl length. lia.
Qed.

Lemma blockCount_binary m : binary m → blockCount m = filledCellCount m.
Proof.
  intros Hm. unfold blockCount, filledCellCount.
  rewrite foldl_add_binary; [lia |]. by apply Forall_concat.
Qed.

Lemma filledCellCount_nonneg m : 0 ≤ filledCellCount m.
Proof. unfold filledCellCount. lia. Qed.

Section Properties.
Context `{GameLogic}.

(** ** The handlers, field by field *)

Lemma handlePlacePiece_counters s piece x y src d :
  let l := placedLines s piece x y in
  let s' := (handlePlacePiece s piece x y src d).1 in
  combo s' = (if 0 <? l then combo s + 1 else 1) ∧
  keys s' = (if 0 <? l then keys s + l else keys s) ∧
  score s' = score s + blockCount (matrix (deref s piece)) * 10
             + (if 0 <? l then calculateScore l (combo s) else 0) ∧
  highScore s' = Z.max (highScore s) (score s') ∧
  grid s' = placedGrid s piece x y.
Proof.
  intros l s'. subst s'. unfold handlePlacePiece, placedGrid.
  fold (placedLines s piece x y). fold l.
  destruct d as [[d1 d2] d3].
  destruct s as [hp ph g ap hd sel sc hs k c]; cbn in *.
  destruct (0 <? l); cbn;
    (destruct (hs <? _) eqn:Hhs; cbn;
     (destruct src as [i|]; cbn;
      [ destruct (length (delete i ap) =? 0)%nat; cbn;
        destruct checkGameOver; cbn | ]));
    repeat split; try reflexivity; lia.
Qed.

(** C5: after a placement that clears at least one line the combo is the
    current combo plus 1, whatever the number of lines; after a placement
    that clears none it is 1; and it is 1 when a game starts (and in the
    first render). *)
Theorem combo_transition s piece x y src d :
  let l := placedLines s piece x y in
  let s' := (handlePlacePiece s piece x y src d).1 in
  (1 ≤ l → combo s' = combo s + 1) ∧
  (l = 0 → combo s' = 1) ∧
  combo (startGame s d).1 = 1 ∧
  (∀ stored, combo (initialState stored) = 1).
Proof.
  intros l s'.
  destruct (handlePlacePiece_counters s piece x y src d) as (Hc & _).
  fold l s' in Hc.
  split; [| split; [| split]].
  - intros Hl. rewrite Hc. destruct (Z.ltb_spec 0 l); [reflexivity | lia].
  - intros Hl. rewrite Hc, Hl. reflexivity.
  - unfold startGame, spawnPieces, fireTimer. destruct d as [[d1 d2] d3].
    destruct s; cbn. destruct checkGameOver; reflexivity.
  - reflexivity.
Qed.

(** C6: a placement grants exactly [linesCleared] keys when it clears at
    least one line, and none when it clears no line. *)
Theorem keys_reward s piece x y src d :
  let l := placedLines s piece x y in
  let s' := (handlePlacePiece s piece x y src d).1 in
  (1 ≤ l → keys s' - keys s = l) ∧
  (l = 0 → keys s' - keys s = 0).
Proof.
  intros l s'.
  destruct (handlePlacePiece_counters s piece x y src d) as (_ & Hk & _).
  fold l s' in Hk. split; intros Hl; rewrite Hk.
  - destruct (Z.ltb_spec 0 l); lia.
  - rewrite Hl. cbn. lia.
Qed.

(** C7: the score of a placement turn is the old score, plus ten points
    per filled cell of the placed shape, plus the line-clear score of the
    turn (which is absent when no line is cleared). *)
Theorem placement_score s piece x y src d :
  binary (matrix (deref s piece)) →
  let l := placedLines s piece x y in
  let s' := (handlePlacePiece s piece x y src d).1 in
  score s' = score s
             + filledCellCount (matrix (deref s piece)) * 10
             + (if 0 <? l then calculateScore l (combo s) else 0).
Proof.
  intros Hb l s'.
  destruct (handlePlacePiece_counters s piece x y src d) as (_ & _ & Hs & _).
  fold l s' in Hs. rewrite Hs, (blockCount_binary _ Hb). reflexivity.
Qed.

(** C10: starting a game sets the keys to exactly 3, which covers the
    rotation cost of 2, whatever the state before and before any
    placement. *)
Theorem startGame_keys s d :
  keys (startGame s d).1 = 3 ∧
  COST_ROTATE = 2 ∧
  (keys (startGame s d).1 <? COST_ROTATE) = false.
Proof.
  assert (Hk : keys (startGame s d).1 = 3).
  { unfold startGame, spawnPieces, fireTimer. destruct d as [[d1 d2] d3].
    destruct s; cbn. destruct checkGameOver; reflexivity. }
  rewrite Hk. repeat split.
Qed.

(** *** Rotation *)

Lemma handleRotate_poor s : keys s < COST_ROTATE → handleRotate s = Some s.
Proof.
  intros Hk. unfold handleRotate.
  destruct (selectedPieceIndex s); [| reflexivity].
  destruct (Z.ltb_spec (keys s) COST_ROTATE); [reflexivity | lia].
Qed.

Lemma handleRotateHold_poor s : keys s < COST_ROTATE → handleRotateHold s = s.
Proof.
  intros Hk. unfold handleRotateHold.
  destruct (holdPiece s); [| reflexivity].
  destruct (Z.ltb_spec (keys s) COST_ROTATE); [reflexivity | lia].
Qed.

(** A paid rotation of a pool piece assigns to the [matrix] field of the
    object in the pool: the array is new, the object is the old one. *)
Lemma handleRotate_in_place s i l :
  COST_ROTATE ≤ keys s →
  selectedPieceIndex s = Some i →
  availablePieces s !! i = Some l →
  ∃ s', handleRotate s = Some s' ∧
        keys s' = keys s - COST_ROTATE ∧
        availablePieces s' = availablePieces s ∧
        holdPiece s' = holdPiece s ∧
        matrix (deref s' l) = rotateMatrix (matrix (deref s l)) ∧
        (∀ l', l' ≠ l → deref s' l' = deref s l').
Proof.
  intros Hk Hsel Hl. unfold handleRotate. rewrite Hsel.
  destruct (Z.ltb_spec (keys s) COST_ROTATE); [lia |].
  rewrite Hl. cbn [mbind option_bind]. eexists; split; [reflexivity |].
  destruct s as [hp ph g ap hd sel sc hs k c]; cbn.
  unfold deref; cbn. rewrite fn_lookup_insert.
  repeat split; try reflexivity.
  intros l' Hne. by rewrite fn_lookup_insert_ne.
Qed.

(** A paid rotation of the hold piece builds a new object and leaves the
    old one as it was. *)
Lemma handleRotateHold_copies s l :
  COST_ROTATE ≤ keys s →
  holdPiece s = Some l →
  let s' := handleRotateHold s in
  keys s' = keys s - COST_ROTATE ∧
  availablePieces s' = availablePieces s ∧
  holdPiece s' = Some (limit (heap s)) ∧
  matrix (deref s' (limit (heap s))) = rotateMatrix (matrix (deref s l)) ∧
  (∀ l', l' ≠ limit (heap s) → deref s' l' = deref s l').
Proof.
  intros Hk Hh s'. subst s'. unfold handleRotateHold. rewrite Hh.
  destruct (Z.ltb_spec (keys s) COST_ROTATE); [lia |].
  destruct s as [hp ph g ap hd sel sc hs k c]; cbn.
  unfold deref; cbn. rewrite fn_lookup_insert.
  repeat split; try reflexivity.
  intros l' Hne. by rewrite fn_lookup_insert_ne.
Qed.

(** C2: a rotation request with fewer keys than the cost changes nothing
    and raises nothing; a request with enough keys, for the selected pool
    piece or for the hold piece, deducts COST_ROTATE = 2 keys once and
    replaces the matrix of the piece by its rotation. *)
Theorem rotation_cost s :
  COST_ROTATE = 2 ∧
  (keys s < COST_ROTATE → handleRotate s = Some s ∧ handleRotateHold s = s) ∧
  (COST_ROTATE ≤ keys s →
   (∀ i l, selectedPieceIndex s = Some i → availablePieces s !! i = Some l →
      ∃ s', handleRotate s = Some s' ∧
            keys s' = keys s - 2 ∧
            availablePieces s' !! i = Some l ∧
            matrix (deref s' l) = rotateMatrix (matrix (deref s l))) ∧
   (∀ l, holdPiece s = Some l →
      ∃ l', holdPiece (handleRotateHold s) = Some l' ∧
            keys (handleRotateHold s) = keys s - 2 ∧
            matrix (deref (handleRotateHold s) l')
              = rotateMatrix (matrix (deref s l)))).
Proof.
  split; [reflexivity |]. split.
  - intros Hk. split.
    + by apply handleRotate_poor.
    + by apply handleRotateHold_poor.
  - intros Hk. split.
    + intros i l Hsel Hl.
      destruct (handleRotate_in_place s i l Hk Hsel Hl)
        as (s' & Hs' & Hkeys & Hpool & _ & Hm & _).
      exists s'. rewrite Hpool. auto.
    + intros l Hh.
      destruct (handleRotateHold_copies s l Hk Hh) as (Hkeys & _ & Hh' & Hm & _).
      eauto.
Qed.

(** *** What the helpers touch *)

(** The deferred check of [spawnPieces] reads the grid and the hold piece
    of the render that called it, not the ones the handler has just set. *)
Lemma fireTimer_check t st :
  checkedGrid (fireTimer t st).2 = timerGrid t.
Proof. reflexivity. Qed.

Lemma spawnPieces_timer s d st :
  timerGrid (spawnPieces s d st).2 = grid s ∧
  timerHold (spawnPieces s d st).2 = holdPiece s.
Proof. destruct d as [[d1 d2] d3]. split; reflexivity. Qed.

(** *** The pool *)

Lemma handlePlacePiece_pool s piece x y src d :
  let s' := (handlePlacePiece s piece x y src d).1 in
  match src with
  | Hold => availablePieces s' = availablePieces s ∧ holdPiece s' = None
  | Index i =>
      let rest := delete i (availablePieces s) in
      (rest = [] → freshBatch s s' d) ∧
      (rest ≠ [] → availablePieces s' = rest)
  end.
Proof.
  intros s'. subst s'. unfold handlePlacePiece, freshBatch.
  destruct d as [[d1 d2] d3].
  destruct s as [hp ph g ap hd sel sc hs k c]; cbn.
  destruct (0 <? _); cbn; destruct (hs <? _); cbn;
    (destruct src as [i|]; cbn; [| split; reflexivity]).
  all: destruct (delete i ap) as [|a rest] eqn:Hrest; cbn.
  all: destruct checkGameOver; cbn.
  all: split; [try discriminate | try congruence; try reflexivity].
  all: intros _; split; [reflexivity |]; unfold deref; cbn.
  all: unfold insert, fn_insert; repeat (case_decide; try lia); reflexivity.
Qed.

Lemma arrayStore_in_range {A} i (v : A) arr :
  (i < length arr)%nat → arrayStore i v arr = Some (<[i := v]> arr).
Proof.
  intros Hi. unfold arrayStore.
  destruct (Nat.ltb_spec i (length arr)); [reflexivity | lia].
Qed.

Lemma handleHoldDrop_pool s piece i d :
  (i < length (availablePieces s))%nat →
  ∃ s' cs, handleHoldDrop s piece (Index i) d = Some (s', cs) ∧
    holdPiece s' = Some piece ∧
    match holdPiece s with
    | Some h => availablePieces s' = <[i := h]> (availablePieces s)
    | None =>
        let rest := delete i (availablePieces s) in
        (rest = [] → freshBatch s s' d) ∧
        (rest ≠ [] → availablePieces s' = rest)
    end.
Proof.
  intros Hi. unfold handleHoldDrop, freshBatch.
  destruct d as [[d1 d2] d3].
  destruct s as [hp ph g ap hd sel sc hs k c]; cbn in *.
  destruct hd as [h|]; cbn.
  - rewrite arrayStore_in_range by done. cbn. eauto.
  - destruct (delete i ap) as [|a rest] eqn:Hrest; cbn.
    + destruct checkGameOver; cbn; do 2 eexists.
      all: split; [reflexivity |]; cbn; split; [reflexivity |].
      all: split; [| congruence]; intros _; split; [reflexivity |].
      all: unfold deref; cbn; unfold insert, fn_insert.
      all: repeat (case_decide; try lia); reflexivity.
    + do 2 eexists. split; [reflexivity |]. cbn.
      split; [reflexivity |]. split; [discriminate | reflexivity].
Qed.

Lemma startGame_fields s d :
  let s' := (startGame s d).1 in
  availablePieces s' =
    [limit (heap s); S (limit (heap s)); S (S (limit (heap s)))] ∧
  score s' = 0 ∧ keys s' = 3 ∧ combo s' = 1 ∧ highScore s' = highScore s ∧
  (heapInv s → heapInv s').
Proof.
  intros s'. subst s'. unfold startGame, spawnPieces, fireTimer, heapInv, deref.
  destruct d as [[d1 d2] d3].
  destruct s as [hp ph g ap hd sel sc hs k c]; cbn.
  destruct checkGameOver; cbn; repeat split; try reflexivity.
  all: intros Hh l; unfold insert, fn_insert.
  all: repeat case_decide; auto using generated_binary.
Qed.

Lemma handleDragStart_idle s l src :
  phase s ≠ playing → handleDragStart s l src = (s, None).
Proof. unfold handleDragStart. destruct (phase s); congruence. Qed.

Lemma handleDragStart_playing s l src :
  phase s = playing →
  ∃ s1, handleDragStart s l src = (s1, Some (mkDrag (limit (heap s)) src)) ∧
        availablePieces s1 = availablePieces s ∧
        holdPiece s1 = holdPiece s ∧
        score s1 = score s ∧ highScore s1 = highScore s ∧
        keys s1 = keys s ∧ combo s1 = combo s ∧
        (heapInv s → heapInv s1).
Proof.
  intros Hph. unfold handleDragStart, heapInv, deref. rewrite Hph.
  destruct s as [hp ph g ap hd sel sc hs k c]; cbn.
  eexists; split; [reflexivity |]. cbn. repeat split.
  intros Hh l'. unfold insert, fn_insert. case_decide; auto.
Qed.

Lemma handlePlacePiece_heapInv s piece x y src d :
  heapInv s → heapInv (handlePlacePiece s piece x y src d).1.
Proof.
  unfold handlePlacePiece, spawnPieces, fireTimer, heapInv, deref.
  destruct d as [[d1 d2] d3].
  destruct s as [hp ph g ap hd sel sc hs k c]; cbn. intros Hh.
  destruct (0 <? _); cbn; destruct (hs <? _); cbn;
    (destruct src as [i|]; cbn; [| assumption]).
  all: destruct (delete i ap) as [|a rest]; cbn.
  all: destruct checkGameOver; cbn; try assumption.
  all: intros l; unfold insert, fn_insert.
  all: repeat case_decide; auto using generated_binary.
Qed.

Lemma handleHoldDrop_frame s piece src d s' cs :
  handleHoldDrop s piece src d = Some (s', cs) →
  score s' = score s ∧ highScore s' = highScore s ∧
  keys s' = keys s ∧ combo s' = combo s ∧
  (heapInv s → heapInv s').
Proof.
  unfold handleHoldDrop, spawnPieces, fireTimer, heapInv, deref.
  destruct d as [[d1 d2] d3].
  destruct s as [hp ph g ap hd sel sc hs k c]; cbn.
  destruct src as [i|]; [| intros [= <- <-]; cbn; auto 6].
  destruct hd as [h|]; cbn.
  - destruct (arrayStore i h ap); cbn; [| discriminate].
    intros [= <- <-]; cbn. auto 6.
  - destruct (delete i ap) as [|a rest]; cbn.
    + destruct checkGameOver; cbn; intros [= <- <-]; cbn.
      all: repeat split; intros Hh l; unfold insert, fn_insert.
      all: repeat case_decide; auto using generated_binary.
    + intros [= <- <-]; cbn. auto 6.
Qed.

Lemma handleRotate_frame s s' :
  handleRotate s = Some s' →
  availablePieces s' = availablePieces s ∧
  holdPiece s' = holdPiece s ∧
  score s' = score s ∧ highScore s' = highScore s ∧ combo s' = combo s ∧
  (keys s' = keys s ∨ (COST_ROTATE ≤ keys s ∧ keys s' = keys s - COST_ROTATE)) ∧
  ((∀ m, binary m → binary (rotateMatrix m)) → heapInv s → heapInv s').
Proof.
  unfold handleRotate, heapInv, deref.
  destruct s as [hp ph g ap hd sel sc hs k c]; cbn.
  destruct sel as [i|]; [| intros [= <-]; cbn; auto 8].
  destruct (Z.ltb_spec k COST_ROTATE); [intros [= <-]; cbn; auto 8 |].
  destruct (ap !! i) as [l|]; cbn; [| discriminate].
  intros [= <-]; cbn. split_and!; try done; [right; lia |].
  intros Hrot Hh l'. unfold insert, fn_insert. case_decide; cbn; auto.
Qed.

Lemma handleRotateHold_frame s :
  let s' := handleRotateHold s in
  availablePieces s' = availablePieces s ∧
  (holdPiece s = None → holdPiece s' = None) ∧
  score s' = score s ∧ highScore s' = highScore s ∧ combo s' = combo s ∧
  (keys s' = keys s ∨ (COST_ROTATE ≤ keys s ∧ keys s' = keys s - COST_ROTATE)) ∧
  ((∀ m, binary m → binary (rotateMatrix m)) → heapInv s → heapInv s').
Proof.
  intros s'. subst s'. unfold handleRotateHold, heapInv, deref.
  destruct s as [hp ph g ap hd sel sc hs k c]; cbn.
  destruct hd as [l|]; [| cbn; auto 8].
  destruct (Z.ltb_spec k COST_ROTATE); [cbn; auto 8 |].
  cbn. split_and!; try done; [right; lia |].
  intros Hrot Hh l'. unfold insert, fn_insert. case_decide; cbn; auto.
Qed.

(** *** One event *)

Lemma rendered_Index_lt s i l :
  rendered s (Index i) = Some l → (i < length (availablePieces s))%nat.
Proof. cbn. apply lookup_lt_Some. Qed.

Lemma length_delete_le {A} i (l : list A) : (length (delete i l) ≤ length l)%nat.
Proof.
  revert i. induction l as [|a l IH]; intros [|i]; simpl; try lia.
  specialize (IH i). simpl in IH. lia.
Qed.

Lemma result_fst {A B} (r : A * B) a b : Some r = Some (a, b) → a = r.1.
Proof. by intros [= ->]. Qed.

Lemma perform_pool_bound s e s' cs :
  perform s e = Some (s', cs) →
  (length (availablePieces s) ≤ 3)%nat →
  (length (availablePieces s') ≤ 3)%nat.
Proof.
  intros Hp Hlen. destruct e as [d | src moves d | d | | |]; cbn in Hp.
  - apply result_fst in Hp; cbn in Hp; subst s'.
    destruct (startGame_fields s d) as (-> & _). cbn. lia.
  - destruct (rendered s src) as [l|] eqn:Hl; cbn in Hp; [| discriminate].
    destruct (decide (phase s = playing)) as [Hph | Hph].
    2:{ rewrite (handleDragStart_idle _ _ _ Hph) in Hp. by apply result_fst in Hp; cbn in Hp; subst s'. }
    destruct (handleDragStart_playing s l src Hph) as (s1 & Hs1 & Hap & _).
    rewrite Hs1 in Hp. unfold handlePointerUp in Hp.
    destruct (dropPreview _) as [[x y]|]; cbn in Hp.
    + apply result_fst in Hp; cbn in Hp; subst s'.
      pose proof (handlePlacePiece_pool s1 (limit (heap s)) x y src d) as Hpool.
      cbn in Hpool. destruct src as [i|].
      * destruct Hpool as [Hnil Hcons].
        destruct (delete i (availablePieces s1)) as [|a rest] eqn:Hrest.
        -- destruct (Hnil eq_refl) as [-> _]. cbn. lia.
        -- rewrite Hcons by discriminate. rewrite <- Hrest, Hap.
           pose proof (length_delete_le i (availablePieces s)). lia.
      * destruct Hpool as [-> _]. by rewrite Hap.
    + destruct (isHoveringHold _); [| apply result_fst in Hp; cbn in Hp; subst s'; by rewrite Hap].
      destruct src as [i|]; [| apply result_fst in Hp; cbn in Hp; subst s'; by rewrite Hap].
      apply rendered_Index_lt in Hl. rewrite <- Hap in Hl.
      destruct (handleHoldDrop_pool s1 (limit (heap s)) i d Hl)
        as (s2 & cs2 & Hs2 & _ & Hpool).
      cbn in Hs2, Hp. rewrite Hs2 in Hp. apply result_fst in Hp; cbn in Hp; subst s'.
      destruct (holdPiece s1).
      * rewrite Hpool, length_insert, Hap. done.
      * destruct Hpool as [Hnil Hcons].
        destruct (delete i (availablePieces s1)) as [|a rest] eqn:Hrest.
        -- destruct (Hnil eq_refl) as [-> _]. cbn. lia.
        -- rewrite Hcons by discriminate. rewrite <- Hrest, Hap.
           pose proof (length_delete_le i (availablePieces s)). lia.
  - unfold handleHoldButton in Hp.
    destruct (selectedPieceIndex s) as [i|]; [| by apply result_fst in Hp; cbn in Hp; subst s'].
    destruct (availablePieces s !! i) as [l|] eqn:Hl;
      cbn [mbind option_bind] in Hp; [| discriminate].
    apply lookup_lt_Some in Hl.
    destruct (handleHoldDrop_pool s l i d Hl) as (s2 & cs2 & Hs2 & _ & Hpool).
    rewrite Hs2 in Hp. apply result_fst in Hp; cbn in Hp; subst s'.
    destruct (holdPiece s).
    + rewrite Hpool, length_insert. done.
    + destruct Hpool as [Hnil Hcons].
      destruct (delete i (availablePieces s)) as [|a rest] eqn:Hrest.
      * destruct (Hnil eq_refl) as [-> _]. cbn. lia.
      * rewrite Hcons by discriminate. rewrite <- Hrest.
        pose proof (length_delete_le i (availablePieces s)). lia.
  - destruct (handleRotate s) as [s1|] eqn:Hr; cbn in Hp; [| discriminate].
    apply result_fst in Hp; cbn in Hp; subst s'.
    destruct (handleRotate_frame s s1 Hr) as (-> & _). done.
  - apply result_fst in Hp; cbn in Hp; subst s'.
    destruct (handleRotateHold_frame s) as (-> & _). done.
  - apply result_fst in Hp; cbn in Hp; subst s'. destruct s; cbn in *. done.
Qed.

Lemma delete_rest_nonempty s s' i d :
  let rest := delete i (availablePieces s) in
  (rest = [] → freshBatch s s' d) → (rest ≠ [] → availablePieces s' = rest) →
  availablePieces s' ≠ [].
Proof.
  intros rest Hnil Hcons. destruct rest as [|a r] eqn:Hrest.
  - destruct (Hnil eq_refl) as [-> _]. discriminate.
  - rewrite Hcons; discriminate.
Qed.

(** An empty pool goes with an empty hold slot: once a game has started
    the pool is never empty between two events. *)
Lemma perform_pool_nonempty s e s' cs :
  perform s e = Some (s', cs) →
  (availablePieces s = [] → holdPiece s = None) →
  (availablePieces s' = [] → holdPiece s' = None).
Proof.
  intros Hp Hinv. destruct e as [d | src moves d | d | | |]; cbn in Hp.
  - apply result_fst in Hp; cbn in Hp; subst s'.
    destruct (startGame_fields s d) as (-> & _). discriminate.
  - destruct (rendered s src) as [l|] eqn:Hl; cbn in Hp; [| discriminate].
    destruct (decide (phase s = playing)) as [Hph | Hph].
    2:{ rewrite (handleDragStart_idle _ _ _ Hph) in Hp.
        apply result_fst in Hp; cbn in Hp; by subst s'. }
    destruct (handleDragStart_playing s l src Hph) as (s1 & Hs1 & Hap & Hhd & _).
    rewrite Hs1 in Hp. unfold handlePointerUp in Hp.
    destruct (dropPreview _) as [[x y]|]; cbn in Hp.
    + apply result_fst in Hp; cbn in Hp; subst s'.
      pose proof (handlePlacePiece_pool s1 (limit (heap s)) x y src d) as Hpool.
      cbn in Hpool. destruct src as [i|].
      * destruct Hpool as [Hnil Hcons]. intros Hempty.
        by destruct (delete_rest_nonempty s1 _ i d Hnil Hcons).
      * by destruct Hpool as [_ ->].
    + destruct (isHoveringHold _);
        [| apply result_fst in Hp; cbn in Hp; subst s'; by rewrite Hap, Hhd].
      destruct src as [i|];
        [| apply result_fst in Hp; cbn in Hp; subst s'; by rewrite Hap, Hhd].
      apply rendered_Index_lt in Hl. rewrite <- Hap in Hl.
      destruct (handleHoldDrop_pool s1 (limit (heap s)) i d Hl)
        as (s2 & cs2 & Hs2 & _ & Hpool).
      cbn in Hs2, Hp. rewrite Hs2 in Hp.
      apply result_fst in Hp; cbn in Hp; subst s'. intros Hempty.
      destruct (holdPiece s1).
      * apply (f_equal length) in Hempty.
        rewrite Hpool, length_insert in Hempty. cbn in Hempty. lia.
      * destruct Hpool as [Hnil Hcons].
        by destruct (delete_rest_nonempty s1 _ i d Hnil Hcons).
  - unfold handleHoldButton in Hp.
    destruct (selectedPieceIndex s) as [i|];
      [| apply result_fst in Hp; cbn in Hp; by subst s'].
    destruct (availablePieces s !! i) as [l|] eqn:Hl;
      cbn [mbind option_bind] in Hp; [| discriminate].
    apply lookup_lt_Some in Hl.
    destruct (handleHoldDrop_pool s l i d Hl) as (s2 & cs2 & Hs2 & _ & Hpool).
    rewrite Hs2 in Hp. apply result_fst in Hp; cbn in Hp; subst s'.
    intros Hempty. destruct (holdPiece s).
    + apply (f_equal length) in Hempty.
      rewrite Hpool, length_insert in Hempty. cbn in Hempty. lia.
    + destruct Hpool as [Hnil Hcons].
      by destruct (delete_rest_nonempty s _ i d Hnil Hcons).
  - destruct (handleRotate s) as [s1|] eqn:Hr; cbn in Hp; [| discriminate].
    apply result_fst in Hp; cbn in Hp; subst s'.
    destruct (handleRotate_frame s s1 Hr) as (-> & -> & _). done.
  - apply result_fst in Hp; cbn in Hp; subst s'.
    destruct (handleRotateHold_frame s) as (-> & Hnone & _). auto.
  - apply result_fst in Hp; cbn in Hp; subst s'. destruct s; cbn in *. done.
Qed.

Lemma reachable_pool s :
  reachable s →
  (length (availablePieces s) ≤ 3)%nat ∧
  (availablePieces s = [] → holdPiece s = None).
Proof.
  induction 1 as [stored _ | s e s' cs _ [IHlen IHne] Hp].
  - cbn. split; [lia | done].
  - eauto using perform_pool_bound, perform_pool_nonempty.
Qed.

Lemma handlePlacePiece_selection s piece x y src d :
  selectedPieceIndex (handlePlacePiece s piece x y src d).1 =
    match src with
    | Hold => selectedPieceIndex s
    | Index _ => None
    end.
Proof.
  unfold handlePlacePiece, deref. destruct d as [[d1 d2] d3].
  destruct s as [hp ph g ap hd sel sc hs k c]; cbn.
  destruct (0 <? _); cbn; destruct (hs <? _); cbn;
    (destruct src as [i|]; cbn; [| reflexivity]).
  all: destruct (delete i ap) as [|a rest]; cbn.
  all: destruct checkGameOver; reflexivity.
Qed.

Lemma handleHoldDrop_selection s piece i d s' cs :
  handleHoldDrop s piece (Index i) d = Some (s', cs) →
  selectedPieceIndex s' = None.
Proof.
  unfold handleHoldDrop, deref. destruct d as [[d1 d2] d3].
  destruct s as [hp ph g ap hd sel sc hs k c]; cbn.
  destruct hd as [h|]; cbn.
  - destruct (arrayStore i h ap); cbn; [| discriminate].
    by intros [= <- <-].
  - destruct (delete i ap) as [|a rest]; cbn.
    + destruct checkGameOver; by intros [= <- <-].
    + by intros [= <- <-].
Qed.

Lemma handleDragStart_selection s l src s1 ds :
  handleDragStart s l src = (s1, Some ds) →
  availablePieces s1 = availablePieces s ∧
  sourceIndex ds = src ∧
  selectedPieceIndex s1 =
    match src with
    | Index i => Some i
    | Hold => None
    end.
Proof.
  unfold handleDragStart. destruct (phase s); try discriminate.
  destruct s as [hp ph g ap hd sel sc hs k c]; cbn.
  by intros [= <- <-].
Qed.

Lemma handleRotate_selection s s' :
  handleRotate s = Some s' →
  selectedPieceIndex s' = selectedPieceIndex s.
Proof.
  unfold handleRotate.
  destruct s as [hp ph g ap hd sel sc hs k c]; cbn.
  destruct sel as [i|]; [| by intros [= <-]].
  destruct (k <? COST_ROTATE); [by intros [= <-] |].
  destruct (ap !! i) as [l|]; cbn; [| discriminate].
  by intros [= <-].
Qed.

Lemma handleRotateHold_selection s :
  selectedPieceIndex (handleRotateHold s) = selectedPieceIndex s.
Proof.
  unfold handleRotateHold.
  destruct s as [hp ph g ap hd sel sc hs k c]; cbn.
  destruct hd as [l|]; [| reflexivity].
  destruct (k <? COST_ROTATE); reflexivity.
Qed.

Lemma perform_selection s e s' cs :
  perform s e = Some (s', cs) → selectionInv s → selectionInv s'.
Proof.
  intros Hp Hinv i. destruct e as [d | src moves d | d | | |]; cbn in Hp.
  - apply result_fst in Hp; subst s'.
    unfold startGame, spawnPieces, fireTimer. destruct d as [[d1 d2] d3].
    destruct s; cbn. destruct checkGameOver; discriminate.
  - destruct (rendered s src) as [l|] eqn:Hl; cbn in Hp; [| discriminate].
    destruct (handleDragStart s l src) as [s1 [ds|]] eqn:Hs1.
    2:{ apply result_fst in Hp; cbn in Hp; subst s'.
        unfold handleDragStart in Hs1.
        destruct (phase s), s; cbn in Hs1; try discriminate.
        all: injection Hs1 as <-; apply Hinv. }
    destruct (handleDragStart_selection _ _ _ _ _ Hs1) as (Hap & Hsrc & Hsel).
    unfold handlePointerUp in Hp. rewrite Hsrc in Hp.
    destruct (dropPreview _) as [[x y]|].
    + apply result_fst in Hp; cbn [fst] in Hp; subst s'.
      rewrite handlePlacePiece_selection, Hsel. by destruct src.
    + destruct (isHoveringHold _).
      * destruct src as [j|].
        -- by rewrite (handleHoldDrop_selection _ _ _ _ _ _ Hp).
        -- apply result_fst in Hp; cbn in Hp; subst s'. by rewrite Hsel.
      * apply result_fst in Hp; cbn in Hp; subst s'.
        rewrite Hsel, Hap. destruct src as [j|]; [| done].
        intros [= <-]. by apply rendered_Index_lt in Hl.
  - unfold handleHoldButton in Hp.
    destruct (selectedPieceIndex s) as [j|] eqn:Hsel.
    2:{ apply result_fst in Hp; cbn in Hp; subst s'. by rewrite Hsel. }
    destruct (availablePieces s !! j) as [l|] eqn:Hl;
      cbn [mbind option_bind] in Hp; [| discriminate].
    by rewrite (handleHoldDrop_selection _ _ _ _ _ _ Hp).
  - destruct (handleRotate s) as [s1|] eqn:Hr; cbn in Hp; [| discriminate].
    apply result_fst in Hp; cbn in Hp; subst s'.
    rewrite (handleRotate_selection _ _ Hr).
    destruct (handleRotate_frame s s1 Hr) as (-> & _). apply Hinv.
  - apply result_fst in Hp; cbn in Hp; subst s'.
    rewrite handleRotateHold_selection.
    destruct (handleRotateHold_frame s) as (-> & _). apply Hinv.
  - apply result_fst in Hp; cbn in Hp; subst s'. destruct s; apply Hinv.
Qed.

Lemma reachable_selection s : reachable s → selectionInv s.
Proof.
  induction 1 as [stored _ | s e s' cs _ IH Hp].
  - intros i. discriminate.
  - eauto using perform_selection.
Qed.

(** In a session the rotate handler never throws: the selected index is
    always a slot of the pool. *)
Lemma handleRotate_total s : reachable s → is_Some (handleRotate s).
Proof.
  intros Hreach. pose proof (reachable_selection s Hreach) as Hsel.
  unfold handleRotate.
  destruct (selectedPieceIndex s) as [i|] eqn:Hi; [| by eexists].
  destruct (keys s <? COST_ROTATE); [by eexists |].
  destruct (lookup_lt_is_Some_2 (availablePieces s) i (Hsel i Hi)) as [l ->].
  by eexists.
Qed.

(** In a session every event on an element that is on screen runs to
    completion: the [None] cases of the handlers (a selected index outside
    the pool, an array write past the end) do not arise. *)
Lemma perform_total s e :
  reachable s →
  (∀ src moves d, e = Drag src moves d → is_Some (rendered s src)) →
  is_Some (perform s e).
Proof.
  intros Hreach Hdom. pose proof (reachable_selection s Hreach) as Hsel.
  destruct e as [d | src moves d | d | | |]; cbn; try by eexists.
  - destruct (Hdom src moves d eq_refl) as [l Hl]. rewrite Hl. cbn.
    destruct (handleDragStart s l src) as [s1 [ds|]] eqn:Hs1; [| by eexists].
    destruct (handleDragStart_selection _ _ _ _ _ Hs1) as (Hap & Hsrc & _).
    unfold handlePointerUp. rewrite Hsrc.
    destruct (dropPreview _) as [[x y]|]; [by eexists |].
    destruct (isHoveringHold _); [| by eexists].
    destruct src as [i|]; [| by eexists].
    apply rendered_Index_lt in Hl. rewrite <- Hap in Hl.
    destruct (handleHoldDrop_pool s1 (piece ds) i d Hl) as (s2 & cs2 & -> & _).
    by eexists.
  - unfold handleHoldButton.
    destruct (selectedPieceIndex s) as [i|] eqn:Hi; [| by eexists].
    destruct (lookup_lt_is_Some_2 (availablePieces s) i (Hsel i Hi)) as [l Hl].
    rewrite Hl. cbn [mbind option_bind].
    apply lookup_lt_Some in Hl.
    destruct (handleHoldDrop_pool s l i d Hl) as (s2 & cs2 & -> & _).
    by eexists.
  - destruct (handleRotate_total s Hreach) as [s1 ->]. by eexists.
Qed.

Section Laws.
Hypothesis calculateScore_nonneg :
  ∀ l c, 1 ≤ l → 1 ≤ c → 0 ≤ calculateScore l c.
Hypothesis rotateMatrix_binary :
  ∀ m, binary m → binary (rotateMatrix m).

Lemma handlePlacePiece_session s piece x y src d :
  sessionInv s → heapInv s →
  let s' := (handlePlacePiece s piece x y src d).1 in
  sessionInv s' ∧ score s ≤ score s' ∧ highScore s ≤ highScore s'.
Proof.
  intros (Hsc & Hhs & Hk & Hc) Hh s'.
  destruct (handlePlacePiece_counters s piece x y src d)
    as (Hc' & Hk' & Hsc' & Hhs' & _).
  fold s' in Hc', Hk', Hsc', Hhs'.
  pose proof (filledCellCount_nonneg (matrix (deref s piece))) as Hfill.
  rewrite <- (blockCount_binary _ (Hh piece)) in Hfill.
  set (l := placedLines s piece x y) in *.
  assert (0 ≤ (if 0 <? l then calculateScore l (combo s) else 0)) as Hbonus.
  { destruct (Z.ltb_spec 0 l); [apply calculateScore_nonneg; lia | lia]. }
  unfold sessionInv. rewrite Hhs', Hsc', Hk', Hc'.
  destruct (Z.ltb_spec 0 l); lia.
Qed.

Lemma perform_session s e s' cs :
  perform s e = Some (s', cs) →
  sessionInv s → heapInv s →
  sessionInv s' ∧ heapInv s' ∧
  ((∀ d, e ≠ StartGame d) → score s ≤ score s' ∧ highScore s ≤ highScore s').
Proof.
  intros Hp Hs Hh. pose proof Hs as (Hsc & Hhs & Hk & Hc).
  destruct e as [d | src moves d | d | | |]; cbn in Hp.
  - apply result_fst in Hp; subst s'.
    destruct (startGame_fields s d) as (_ & Hsc' & Hk' & Hc' & Hhs' & Hh').
    unfold sessionInv. rewrite Hsc', Hk', Hc', Hhs'.
    split_and!; try lia; [by apply Hh' |]. intros Hne. by destruct (Hne d).
  - destruct (rendered s src) as [l|] eqn:Hl; cbn in Hp; [| discriminate].
    destruct (decide (phase s = playing)) as [Hph | Hph].
    2:{ rewrite (handleDragStart_idle _ _ _ Hph) in Hp.
        apply result_fst in Hp; cbn in Hp; subst s'. split_and!; auto; try lia; intros _; lia. }
    destruct (handleDragStart_playing s l src Hph)
      as (s1 & Hs1 & _ & _ & Hsc1 & Hhs1 & Hk1 & Hc1 & Hh1).
    rewrite Hs1 in Hp. specialize (Hh1 Hh).
    assert (sessionInv s1) as Hinv1.
    { unfold sessionInv. rewrite Hsc1, Hhs1, Hk1, Hc1. done. }
    unfold handlePointerUp in Hp.
    destruct (dropPreview _) as [[x y]|]; cbn [piece sourceIndex] in Hp.
    + apply result_fst in Hp; subst s'.
      destruct (handlePlacePiece_session s1 (limit (heap s)) x y src d Hinv1 Hh1)
        as (Hinv' & Hmono & Hmono').
      rewrite <- Hsc1, <- Hhs1.
      auto using handlePlacePiece_heapInv.
    + destruct (isHoveringHold _).
      * destruct (handleHoldDrop_frame _ _ _ _ _ _ Hp)
          as (Hsc' & Hhs' & Hk' & Hc' & Hh').
        unfold sessionInv. rewrite Hsc', Hhs', Hk', Hc', Hsc1, Hhs1.
        rewrite Hk1, Hc1. split_and!; auto; try lia; intros _; lia.
      * apply result_fst in Hp; cbn in Hp; subst s'.
        rewrite Hsc1, Hhs1. split_and!; auto; try lia; intros _; lia.
  - unfold handleHoldButton in Hp.
    destruct (selectedPieceIndex s) as [i|].
    2:{ apply result_fst in Hp; cbn in Hp; subst s'. split_and!; auto; try lia; intros _; lia. }
    destruct (availablePieces s !! i) as [l|] eqn:Hl;
      cbn [mbind option_bind] in Hp; [| discriminate].
    destruct (handleHoldDrop_frame _ _ _ _ _ _ Hp)
      as (Hsc' & Hhs' & Hk' & Hc' & Hh').
    unfold sessionInv. rewrite Hsc', Hhs', Hk', Hc'.
    split_and!; auto; try lia; intros _; lia.
  - destruct (handleRotate s) as [s1|] eqn:Hr; cbn in Hp; [| discriminate].
    apply result_fst in Hp; cbn in Hp; subst s'.
    destruct (handleRotate_frame s s1 Hr)
      as (_ & _ & Hsc' & Hhs' & Hc' & Hk' & Hh').
    unfold sessionInv. rewrite Hsc', Hhs', Hc'.
    split_and!; auto; try lia; intros _; lia.
  - apply result_fst in Hp; cbn in Hp; subst s'.
    destruct (handleRotateHold_frame s)
      as (_ & _ & Hsc' & Hhs' & Hc' & Hk' & Hh').
    unfold sessionInv. rewrite Hsc', Hhs', Hc'.
    split_and!; auto; try lia; intros _; lia.
  - apply result_fst in Hp; cbn in Hp; subst s'.
    destruct s; cbn in *. split_and!; auto; try lia; intros _; lia.
Qed.

Lemma reachable_session s : reachable s → sessionInv s ∧ heapInv s.
Proof.
  induction 1 as [stored Hst | s e s' cs _ [IHs IHh] Hp].
  - split.
    + unfold sessionInv; cbn. destruct stored as [v|]; cbn; [| lia].
      specialize (Hst v eq_refl). lia.
    + intros l. constructor.
  - destruct (perform_session s e s' cs Hp IHs IHh) as (? & ? & _). auto.
Qed.

End Laws.

(** *** Which game-over evaluation a placement makes *)

Lemma handlePlacePiece_checks_remaining s piece x y i d :
  delete i (availablePieces s) ≠ [] →
  (handlePlacePiece s piece x y (Index i) d).2 =
    [mkCheck (placedGrid s piece x y)
             (deref s <$> delete i (availablePieces s))
             (deref s <$> holdPiece s)].
Proof.
  intros Hrest. unfold handlePlacePiece, placedGrid, deref.
  destruct (delete i (availablePieces s)) as [|a rest] eqn:Hdel; [done |].
  destruct s as [hp ph g ap hd sel sc hs k c]; cbn in *.
  destruct (0 <? _); cbn; destruct (hs <? _); reflexivity.
Qed.

Lemma handlePlacePiece_checks_last s piece x y i d :
  delete i (availablePieces s) = [] →
  ∃ c, (handlePlacePiece s piece x y (Index i) d).2 = [c] ∧
       checkedGrid c = grid s.
Proof.
  intros Hrest. unfold handlePlacePiece, deref. rewrite Hrest.
  destruct d as [[d1 d2] d3].
  destruct s as [hp ph g ap hd sel sc hs k c]; cbn in *.
  destruct (0 <? _); cbn; destruct (hs <? _); cbn.
  all: eexists; split; reflexivity.
Qed.

Lemma handlePlacePiece_checks_hold s piece x y d :
  (handlePlacePiece s piece x y Hold d).2 = [].
Proof.
  unfold handlePlacePiece, deref.
  destruct s as [hp ph g ap hd sel sc hs k c]; cbn.
  destruct (0 <? _); reflexivity.
Qed.

(** C8: in every state of a session the pool holds at most 3 shapes (and
    is empty only while the hold slot is empty too); placing the hold
    piece leaves the pool alone; placing a pool piece, or moving one into
    the empty hold slot, leaves the other pieces when there are any and
    otherwise installs a batch of three newly drawn shapes; swapping with
    an occupied hold slot puts the held piece in the freed slot. *)
Theorem pool_replenishment s :
  reachable s →
  (length (availablePieces s) ≤ 3)%nat ∧
  (availablePieces s = [] → holdPiece s = None) ∧
  (∀ piece x y d,
     availablePieces (handlePlacePiece s piece x y Hold d).1
       = availablePieces s) ∧
  (∀ piece x y i d,
     let rest := delete i (availablePieces s) in
     let s' := (handlePlacePiece s piece x y (Index i) d).1 in
     (rest = [] → freshBatch s s' d) ∧
     (rest ≠ [] → availablePieces s' = rest)) ∧
  (∀ piece i d,
     (i < length (availablePieces s))%nat →
     ∃ s' cs, handleHoldDrop s piece (Index i) d = Some (s', cs) ∧
       match holdPiece s with
       | Some h => availablePieces s' = <[i := h]> (availablePieces s)
       | None =>
           let rest := delete i (availablePieces s) in
           (rest = [] → freshBatch s s' d) ∧
           (rest ≠ [] → availablePieces s' = rest)
       end).
Proof.
  intros Hreach. destruct (reachable_pool s Hreach) as [Hlen Hne].
  split_and!; try assumption.
  - intros piece x y d.
    pose proof (handlePlacePiece_pool s piece x y Hold d) as Hpool.
    cbn in Hpool. tauto.
  - intros piece x y i d. apply (handlePlacePiece_pool s piece x y (Index i) d).
  - intros piece i d Hi.
    destruct (handleHoldDrop_pool s piece i d Hi) as (s' & cs & Hs' & _ & Hpool).
    eauto.
Qed.

(** C9: in every state of a session the score is non-negative and at most
    the high score, the keys are non-negative and the combo is at least 1;
    every event leads to such a state again, and every event other than
    the start of a new game leaves the score and the high score at least
    as large as they were.  (The line-clear score of the missing game
    logic is assumed non-negative, and its rotation to keep matrices
    binary.) *)
Theorem session_invariants s e s' cs :
  (∀ l c, 1 ≤ l → 1 ≤ c → 0 ≤ calculateScore l c) →
  (∀ m, binary m → binary (rotateMatrix m)) →
  reachable s →
  perform s e = Some (s', cs) →
  (0 ≤ score s ∧ score s ≤ highScore s ∧ 0 ≤ keys s ∧ 1 ≤ combo s) ∧
  (0 ≤ score s' ∧ score s' ≤ highScore s' ∧ 0 ≤ keys s' ∧ 1 ≤ combo s') ∧
  ((∀ d, e ≠ StartGame d) →
   score s ≤ score s' ∧ highScore s ≤ highScore s').
Proof.
  intros Hscore Hrot Hreach Hp.
  destruct (reachable_session Hscore Hrot s Hreach) as [Hs Hh].
  destruct (perform_session Hscore Hrot s e s' cs Hp Hs Hh) as (Hs' & _ & Hmono).
  split_and!; solve [apply Hs | apply Hs' | assumption].
Qed.

Lemma run_reachable s es s' :
  reachable s → run s es = Some s' → reachable s'.
Proof.
  revert s. induction es as [|e es IH]; intros s Hs; cbn.
  - by intros [= <-].
  - destruct (perform s e) as [[s1 cs1]|] eqn:Hp; cbn; [| discriminate].
    intros Hrun. eapply IH; [| exact Hrun].
    by eapply reachable_event.
Qed.

End Properties.

(** ** The reference logic meets the assumptions *)

Lemma rotate_binary m : binary m → binary (Spec.rotate m).
Proof.
  unfold binary, Spec.rotate. intros Hm.
  apply Forall_forall. intros r Hr.
  apply elem_of_lookup_imap in Hr as (i & v & -> & _).
  apply Forall_reverse, Forall_fmap, Forall_forall.
  intros row Hrow. cbn.
  destruct (row !! i) as [w|] eqn:Hw; cbn; [| by left].
  rewrite Forall_forall in Hm. specialize (Hm row Hrow).
  exact (Forall_lookup_1 _ _ _ _ Hm Hw).
Qed.

Lemma lineClearScore_nonneg l c :
  1 ≤ l → 1 ≤ c → 0 ≤ Spec.lineClearScore rewardTable l c.
Proof.
  intros Hl Hc. unfold Spec.lineClearScore, rewardTable.
  destruct (l =? 0); nia.
Qed.

Lemma lastPieceState_reachable : @reachable refLogic lastPieceState.
Proof.
  apply (@run_reachable refLogic (initialState None)
           [StartGame firstBatch;
            Drag (Index 0) [atCell 0 0] nextBatch;
            Drag (Index 0) [atCell 4 0] nextBatch]).
  - by apply reachable_mount.
  - vm_compute. reflexivity.
Qed.

(** ** The properties on the sample session *)

Lemma combo_transition_witness :
  combo (@handlePlacePiece refLogic lastPieceState 2%nat 0 0 (Index 0)
           nextBatch).1 = 1.
Proof.
  pose proof (@combo_transition refLogic lastPieceState 2%nat 0 0 (Index 0)
                nextBatch) as Hc.
  cbv zeta in Hc. destruct Hc as (_ & Hzero & _).
  apply Hzero. vm_compute. reflexivity.
Defined.

Lemma keys_reward_witness :
  keys (@handlePlacePiece refLogic lastPieceState 2%nat 0 0 (Index 0)
          nextBatch).1 - keys lastPieceState = 0.
Proof.
  pose proof (@keys_reward refLogic lastPieceState 2%nat 0 0 (Index 0)
                nextBatch) as Hk.
  cbv zeta in Hk. destruct Hk as (_ & Hzero).
  apply Hzero. vm_compute. reflexivity.
Defined.

Lemma placement_score_witness :
  score (@handlePlacePiece refLogic lastPieceState 2%nat 0 0 (Index 0)
           nextBatch).1
  = score lastPieceState
    + filledCellCount (matrix (deref lastPieceState 2%nat)) * 10
    + (if 0 <? @placedLines refLogic lastPieceState 2%nat 0 0
       then @calculateScore refLogic
              (@placedLines refLogic lastPieceState 2%nat 0 0)
              (combo lastPieceState)
       else 0).
Proof.
  apply (@placement_score refLogic lastPieceState 2%nat 0 0 (Index 0) nextBatch).
  apply (bool_decide_unpack _). vm_compute. reflexivity.
Defined.

Lemma pool_replenishment_witness :
  (length (availablePieces lastPieceState) ≤ 3)%nat.
Proof.
  pose proof (@pool_replenishment refLogic lastPieceState
                lastPieceState_reachable) as Hpool.
  apply Hpool.
Defined.

Lemma session_invariants_witness :
  let e := Drag (Index 0) [atCell 0 0] nextBatch in
  let s' := (default (lastPieceState, [])
               (@perform refLogic lastPieceState e)).1 in
  1 ≤ combo s' ∧ score lastPieceState ≤ score s'.
Proof.
  intros e s'.
  pose (r := default (lastPieceState, []) (@perform refLogic lastPieceState e)).
  assert (@perform refLogic lastPieceState e = Some (r.1, r.2)) as Hp.
  { vm_compute. reflexivity. }
  destruct (@session_invariants refLogic lastPieceState e r.1 r.2
              lineClearScore_nonneg rotate_binary
              lastPieceState_reachable Hp) as (_ & Hs' & Hmono).
  split; [apply Hs' |]. apply Hmono. discriminate.
Defined.

Lemma rotation_cost_witness :
  (∃ s', @handleRotate refLogic selectedState = Some s' ∧
         keys s' = keys selectedState - 2) ∧
  keys (@handleRotateHold refLogic holdingState) = keys holdingState - 2.
Proof.
  destruct (@rotation_cost refLogic selectedState) as (_ & _ & Hpool).
  destruct (@rotation_cost refLogic holdingState) as (_ & _ & Hhold).
  split.
  - destruct (Hpool ltac:(vm_compute; discriminate)) as [Hp _].
    destruct (Hp 0%nat 0%nat ltac:(vm_compute; reflexivity)
                ltac:(vm_compute; reflexivity)) as (s' & Hs' & Hk & _).
    eauto.
  - destruct (Hhold ltac:(vm_compute; discriminate)) as [_ Hh].
    destruct (Hh 3%nat ltac:(vm_compute; reflexivity)) as (l' & _ & Hk & _).
    exact Hk.
Defined.

(** C3 at a concrete state (three pieces in the pool, slot 0 selected,
    3 keys): after the paid rotation the pool still holds the object it
    held before (reference 0), and the matrix of that object is no longer
    the one it had: the rotation assigned to a field of the shared object
    instead of building a new shape. *)
Theorem rotate_assigns_to_pool_object :
  match @handleRotate refLogic selectedState with
  | Some s' =>
      availablePieces selectedState !! 0%nat = Some 0%nat ∧
      availablePieces s' !! 0%nat = Some 0%nat ∧
      limit (heap s') = limit (heap selectedState) ∧
      matrix (deref selectedState 0%nat) = [[1; 1; 1; 1]] ∧
      matrix (deref s' 0%nat) = [[1]; [1]; [1]; [1]]
  | None => False
  end.
Proof.
  vm_compute. split_and!; reflexivity.
Qed.

(** C1 at two concrete placements.  Dropping the last piece of the pool
    (the dot, on the empty board): the one game-over evaluation is given
    the board as it was before the drop, which differs from the board the
    placement produced.  Dropping the hold piece (a line, under the line
    already on the board): the board changes and no game-over evaluation
    is made at all. *)
Theorem placement_checks_miss_the_new_grid :
  match @perform refLogic lastPieceState
          (Drag (Index 0) [atCell 0 0] nextBatch) with
  | Some (s', [c]) =>
      checkedGrid c = grid lastPieceState ∧
      grid s' = @placedGrid refLogic lastPieceState 2%nat 0 0 ∧
      checkedGrid c ≠ grid s'
  | _ => False
  end ∧
  match @perform refLogic heldLineState
          (Drag Hold [atCell 0 1] nextBatch) with
  | Some (s', cs) =>
      cs = [] ∧
      grid s' = @placedGrid refLogic heldLineState 4%nat 0 1 ∧
      grid s' ≠ grid heldLineState
  | None => False
  end.
Proof.
  vm_compute. split_and!; try reflexivity; discriminate.
Qed.

(** ** References and objects

    What the handlers do to the store of shape objects and to the
    references the state holds. *)

(** *** Handlers keep the objects they find *)

Section HeapFrame.
Context `{GameLogic}.

Lemma heapExtends_refl s : heapExtends s s.
Proof. split; [lia | done]. Qed.

Lemma heapExtends_trans s1 s2 s3 :
  heapExtends s1 s2 → heapExtends s2 s3 → heapExtends s1 s3.
Proof.
  intros [Hl1 Hd1] [Hl2 Hd2]. split; [lia |].
  intros l Hl. rewrite Hd2 by lia. by apply Hd1.
Qed.

Lemma startGame_heapExtends s d : heapExtends s (startGame s d).1.
Proof.
  unfold startGame, spawnPieces, fireTimer. destruct d as [[d1 d2] d3].
  destruct s as [hp ph g ap hd sel sc hs k c]; cbn.
  destruct checkGameOver; heap_frame.
Qed.

Lemma handleDragStart_heapExtends s l src :
  heapExtends s (handleDragStart s l src).1.
Proof.
  unfold handleDragStart.
  destruct s as [hp ph g ap hd sel sc hs k c]; cbn.
  destruct ph; cbn; try apply heapExtends_refl. heap_frame.
Qed.

Lemma handlePlacePiece_heapExtends s piece x y src d :
  heapExtends s (handlePlacePiece s piece x y src d).1.
Proof.
  unfold handlePlacePiece, spawnPieces, fireTimer, deref.
  destruct d as [[d1 d2] d3].
  destruct s as [hp ph g ap hd sel sc hs k c]; cbn.
  destruct (0 <? _); cbn; destruct (hs <? _); cbn;
    (destruct src as [i|]; cbn; [| heap_frame]).
  all: destruct (delete i ap) as [|a rest]; cbn.
  all: destruct checkGameOver; heap_frame.
Qed.

Lemma handleHoldDrop_heapExtends s piece src d s' cs :
  handleHoldDrop s piece src d = Some (s', cs) → heapExtends s s'.
Proof.
  unfold handleHoldDrop, spawnPieces, fireTimer, deref.
  destruct d as [[d1 d2] d3].
  destruct s as [hp ph g ap hd sel sc hs k c]; cbn.
  destruct src as [i|]; [| intros [= <- <-]; heap_frame].
  destruct hd as [h|]; cbn.
  - destruct (arrayStore i h ap); cbn; [| discriminate].
    intros [= <- <-]. heap_frame.
  - destruct (delete i ap) as [|a rest]; cbn.
    + destruct checkGameOver; intros [= <- <-]; heap_frame.
    + intros [= <- <-]. heap_frame.
Qed.

Lemma handleRotateHold_heapExtends s : heapExtends s (handleRotateHold s).
Proof.
  unfold handleRotateHold.
  destruct s as [hp ph g ap hd sel sc hs k c]; cbn.
  destruct hd as [l|]; [| heap_frame].
  destruct (k <? COST_ROTATE); heap_frame.
Qed.

(** What [handleRotate] does to the store: at most one assignment, to the
    object in the selected slot. *)
Lemma handleRotate_store s s' :
  handleRotate s = Some s' →
  limit (heap s') = limit (heap s) ∧
  ∀ l, deref s' l = deref s l ∨
       ∃ i, selectedPieceIndex s = Some i ∧ availablePieces s !! i = Some l ∧
            COST_ROTATE ≤ keys s.
Proof.
  unfold handleRotate, deref.
  destruct s as [hp ph g ap hd sel sc hs k c]; cbn.
  destruct sel as [i|]; [| intros [= <-]; cbn; auto].
  destruct (Z.ltb_spec k COST_ROTATE); [intros [= <-]; cbn; auto |].
  destruct (ap !! i) as [l0|] eqn:Hl0; cbn; [| discriminate].
  intros [= <-]; cbn. split; [done |].
  intros l. unfold insert, fn_insert. case_decide; [subst; eauto | auto].
Qed.

Lemma perform_heapExtends s e s' cs :
  perform s e = Some (s', cs) → e ≠ Rotate → heapExtends s s'.
Proof.
  intros Hp Hne. destruct e as [d | src moves d | d | | |]; cbn in Hp.
  - apply result_fst in Hp; subst s'. apply startGame_heapExtends.
  - destruct (rendered s src) as [l|] eqn:Hl; cbn in Hp; [| discriminate].
    pose proof (handleDragStart_heapExtends s l src) as H1.
    destruct (handleDragStart s l src) as [s1 [ds|]]; cbn in H1.
    2:{ apply result_fst in Hp; cbn in Hp; by subst s'. }
    apply (heapExtends_trans _ s1); [done |].
    unfold handlePointerUp in Hp.
    destruct (dropPreview _) as [[x y]|].
    + apply result_fst in Hp; cbn [fst] in Hp; subst s'.
      apply handlePlacePiece_heapExtends.
    + destruct (isHoveringHold _).
      * by eapply handleHoldDrop_heapExtends.
      * apply result_fst in Hp; cbn in Hp; subst s'. apply heapExtends_refl.
  - unfold handleHoldButton in Hp.
    destruct (selectedPieceIndex s) as [i|].
    2:{ apply result_fst in Hp; cbn in Hp; subst s'. apply heapExtends_refl. }
    destruct (availablePieces s !! i) as [l|];
      cbn [mbind option_bind] in Hp; [| discriminate].
    by eapply handleHoldDrop_heapExtends.
  - done.
  - apply result_fst in Hp; cbn in Hp; subst s'. apply handleRotateHold_heapExtends.
  - apply result_fst in Hp; cbn in Hp; subst s'. destruct s. split; [done | by intros].
Qed.

End HeapFrame.

(** *** No object in two slots *)

Section Refs.
Context `{GameLogic}.

Lemma okRefs_sublist n l l' : l' `sublist_of` l → okRefs n l → okRefs n l'.
Proof.
  intros Hsub [Hnd Hlt]. split; [by eapply sublist_NoDup |].
  rewrite Forall_forall in *. eauto using elem_of_sublist.
Qed.

Lemma okRefs_mono n n' l : (n ≤ n')%nat → okRefs n l → okRefs n' l.
Proof.
  intros Hle [Hnd Hlt]. split; [done |].
  eapply Forall_impl; [exact Hlt |]. cbn. lia.
Qed.

Lemma okRefs_perm n l l' : l ≡ₚ l' → okRefs n l → okRefs n l'.
Proof. intros Hp [Hnd Hlt]. split; by rewrite <- Hp. Qed.

Lemma okRefs_fresh n l : okRefs n l → okRefs (S n) (l ++ [n]).
Proof.
  intros [Hnd Hlt]. split.
  - apply NoDup_app. split_and!; [done | | apply NoDup_singleton].
    intros x Hx ->%list_elem_of_singleton.
    rewrite Forall_forall in Hlt. specialize (Hlt _ Hx). lia.
  - apply Forall_app. split; [| repeat constructor].
    eapply Forall_impl; [exact Hlt |]. cbn. lia.
Qed.

Lemma okRefs_batch n l :
  okRefs n l → okRefs (3 + n) ([n; S n; S (S n)] ++ l).
Proof.
  intros [Hnd Hlt]. rewrite Forall_forall in Hlt. split.
  - apply NoDup_app. split_and!; [| | done].
    + repeat (apply NoDup_cons; split;
                [rewrite ?not_elem_of_cons, elem_of_nil; lia |]).
      apply NoDup_nil_2.
    + intros x Hx Hin. specialize (Hlt _ Hin).
      rewrite !elem_of_cons, elem_of_nil in Hx. lia.
  - apply Forall_app. split; [repeat constructor; lia |].
    apply Forall_forall. intros x Hx. specialize (Hlt _ Hx). lia.
Qed.

Lemma insert_swap_Permutation (l : list loc) i p h :
  l !! i = Some p → <[i := h]> l ++ [p] ≡ₚ l ++ [h].
Proof.
  intros Hi. pose proof (lookup_lt_Some _ _ _ Hi) as Hlt.
  rewrite insert_take_drop by done.
  rewrite <- (take_drop_middle l i p Hi) at 3.
  rewrite <- !app_assoc. cbn. apply Permutation_app_head.
  rewrite <- (Permutation_cons_append _ p), <- (Permutation_cons_append _ h).
  apply perm_swap.
Qed.

Lemma handlePlacePiece_limit s piece x y src d :
  limit (heap (handlePlacePiece s piece x y src d).1) =
    match src with
    | Hold => limit (heap s)
    | Index i =>
        match delete i (availablePieces s) with
        | [] => (3 + limit (heap s))%nat
        | _ => limit (heap s)
        end
    end.
Proof.
  unfold handlePlacePiece, spawnPieces, fireTimer, deref.
  destruct d as [[d1 d2] d3].
  destruct s as [hp ph g ap hd sel sc hs k c]; cbn.
  destruct (0 <? _); cbn; destruct (hs <? _); cbn;
    (destruct src as [i|]; cbn; [| reflexivity]).
  all: destruct (delete i ap) as [|a rest]; cbn.
  all: destruct checkGameOver; reflexivity.
Qed.

Lemma handlePlacePiece_hold s piece x y src d :
  holdPiece (handlePlacePiece s piece x y src d).1 =
    match src with
    | Hold => None
    | Index _ => holdPiece s
    end.
Proof.
  unfold handlePlacePiece, spawnPieces, fireTimer, deref.
  destruct d as [[d1 d2] d3].
  destruct s as [hp ph g ap hd sel sc hs k c]; cbn.
  destruct (0 <? _); cbn; destruct (hs <? _); cbn;
    (destruct src as [i|]; cbn; [| reflexivity]).
  all: destruct (delete i ap) as [|a rest]; cbn.
  all: destruct checkGameOver; reflexivity.
Qed.

Lemma handleHoldDrop_limit s piece i d s' cs :
  handleHoldDrop s piece (Index i) d = Some (s', cs) →
  limit (heap s') =
    match holdPiece s, delete i (availablePieces s) with
    | None, [] => (3 + limit (heap s))%nat
    | _, _ => limit (heap s)
    end.
Proof.
  unfold handleHoldDrop, spawnPieces, fireTimer, deref.
  destruct d as [[d1 d2] d3].
  destruct s as [hp ph g ap hd sel sc hs k c]; cbn.
  destruct hd as [h|]; cbn.
  - destruct (arrayStore i h ap); cbn; [| discriminate].
    by intros [= <- <-].
  - destruct (delete i ap) as [|a rest]; cbn.
    + destruct checkGameOver; by intros [= <- <-].
    + by intros [= <- <-].
Qed.

Lemma handlePlacePiece_refsInv s piece x y src d :
  refsInv s → refsInv (handlePlacePiece s piece x y src d).1.
Proof.
  unfold refsInv, liveRefs. fold (okRefs (limit (heap s))
    (availablePieces s ++ option_list (holdPiece s))).
  intros Hok.
  set (s' := (handlePlacePiece s piece x y src d).1).
  fold (okRefs (limit (heap s')) (availablePieces s' ++ option_list (holdPiece s'))).
  pose proof (handlePlacePiece_pool s piece x y src d) as Hpool.
  pose proof (handlePlacePiece_limit s piece x y src d) as Hlim.
  pose proof (handlePlacePiece_hold s piece x y src d) as Hhold.
  fold s' in Hpool, Hlim, Hhold. cbn in Hpool.
  rewrite Hlim, Hhold. destruct src as [i|].
  - destruct Hpool as [Hnil Hcons].
    destruct (delete i (availablePieces s)) as [|a rest] eqn:Hrest.
    + destruct (Hnil eq_refl) as [-> _]. apply okRefs_batch.
      eapply okRefs_sublist; [| exact Hok]. by apply sublist_inserts_l.
    + rewrite Hcons by discriminate. rewrite <- Hrest.
      eapply okRefs_sublist; [| exact Hok].
      apply sublist_app; [apply sublist_delete | done].
  - destruct Hpool as [-> _]. cbn. rewrite app_nil_r.
    eapply okRefs_sublist; [| exact Hok]. by apply sublist_inserts_r.
Qed.

Lemma okRefs_snoc n l x :
  okRefs n l → x ∉ l → (x < n)%nat → okRefs n (l ++ [x]).
Proof.
  intros [Hnd Hlt] Hx Hn. split.
  - apply NoDup_app. split_and!; [done | | apply NoDup_singleton].
    by intros y Hy ->%list_elem_of_singleton.
  - apply Forall_app. split; [done | by repeat constructor].
Qed.

(** Moving [piece] into the hold slot keeps the references apart when
    [piece] is the object in slot [i] (the hold button) or an object no
    slot holds (the copy a drag made). *)
Lemma handleHoldDrop_refsInv s piece i d s' cs :
  refsInv s →
  (piece < limit (heap s))%nat →
  availablePieces s !! i = Some piece ∨
    ((i < length (availablePieces s))%nat ∧ piece ∉ liveRefs s) →
  handleHoldDrop s piece (Index i) d = Some (s', cs) →
  refsInv s'.
Proof.
  unfold refsInv, liveRefs. fold (okRefs (limit (heap s))
    (availablePieces s ++ option_list (holdPiece s))).
  fold (okRefs (limit (heap s')) (availablePieces s' ++ option_list (holdPiece s'))).
  intros Hok Hlt Hpiece Hdrop.
  assert (i < length (availablePieces s))%nat as Hi.
  { destruct Hpiece as [Hslot | [? _]]; [by eapply lookup_lt_Some | done]. }
  pose proof (handleHoldDrop_limit _ _ _ _ _ _ Hdrop) as Hlim.
  destruct (handleHoldDrop_pool s piece i d Hi) as (s2 & cs2 & Hs2 & Hhold & Hpool).
  rewrite Hdrop in Hs2. injection Hs2 as <- <-.
  rewrite Hlim, Hhold. cbn [option_list].
  destruct (holdPiece s) as [h|]; cbn [option_list] in *.
  - rewrite Hpool. destruct Hpiece as [Hslot | [_ Hnew]].
    + eapply okRefs_perm; [| exact Hok].
      symmetry. by apply insert_swap_Permutation.
    + destruct (lookup_lt_is_Some_2 _ _ Hi) as [p Hp].
      assert (okRefs (limit (heap s)) (<[i:=h]> (availablePieces s) ++ [p])) as Hswap.
      { eapply okRefs_perm; [| exact Hok].
        symmetry. by apply insert_swap_Permutation. }
      apply okRefs_snoc; [| | done].
      * eapply okRefs_sublist; [| exact Hswap]. by apply sublist_inserts_r.
      * intros Hin. apply Hnew.
        rewrite <- (insert_swap_Permutation _ i p h Hp).
        apply elem_of_app. by left.
  - rewrite app_nil_r in Hok. destruct Hpool as [Hnil Hcons].
    destruct (delete i (availablePieces s)) as [|a rest] eqn:Hrest.
    + destruct (Hnil eq_refl) as [-> _]. apply okRefs_batch.
      split; [apply NoDup_singleton | by repeat constructor].
    + rewrite Hcons by discriminate. rewrite <- Hrest.
      destruct Hpiece as [Hslot | [_ Hnew]].
      * eapply okRefs_perm; [| exact Hok].
        cbn. rewrite <- Permutation_cons_append.
        by apply delete_Permutation.
      * apply okRefs_snoc; [| | done].
        -- eapply okRefs_sublist; [| exact Hok]. apply sublist_delete.
        -- intros Hin. apply Hnew. rewrite app_nil_r.
           eapply elem_of_sublist; [exact Hin | apply sublist_delete].
Qed.

Lemma handleRotate_refsInv s s' :
  handleRotate s = Some s' → refsInv s → refsInv s'.
Proof.
  intros Hr. unfold refsInv, liveRefs.
  destruct (handleRotate_frame s s' Hr) as (-> & -> & _).
  by destruct (handleRotate_store s s' Hr) as (-> & _).
Qed.

Lemma handleRotateHold_refsInv s : refsInv s → refsInv (handleRotateHold s).
Proof.
  unfold refsInv, liveRefs, handleRotateHold.
  fold (okRefs (limit (heap s)) (availablePieces s ++ option_list (holdPiece s))).
  destruct s as [hp ph g ap hd sel sc hs k c]; cbn.
  destruct hd as [l|]; [| done].
  destruct (k <? COST_ROTATE); [done |]. cbn. intros Hok.
  apply okRefs_fresh. eapply okRefs_sublist; [| exact Hok].
  by apply sublist_inserts_r.
Qed.

Lemma startGame_refsInv s d : refsInv (startGame s d).1.
Proof.
  unfold refsInv, liveRefs, startGame, spawnPieces, fireTimer.
  destruct d as [[d1 d2] d3].
  destruct s as [hp ph g ap hd sel sc hs k c]; cbn.
  destruct checkGameOver; cbn.
  all: apply (okRefs_batch (limit hp) []); split; constructor.
Qed.

Lemma handleDragStart_refs s l src s1 ds :
  handleDragStart s l src = (s1, Some ds) →
  liveRefs s1 = liveRefs s ∧ limit (heap s1) = S (limit (heap s)) ∧
  piece ds = limit (heap s) ∧ sourceIndex ds = src ∧
  deref s1 (piece ds) = deref s l ∧ grid s1 = grid s ∧
  phase s = playing ∧ phase s1 = playing.
Proof.
  unfold handleDragStart, liveRefs, deref.
  destruct s as [hp ph g ap hd sel sc hs k c]; cbn.
  destruct ph; try discriminate. intros [= <- <-]; cbn.
  unfold insert, fn_insert. case_decide; done.
Qed.

Lemma perform_refsInv s e s' cs :
  perform s e = Some (s', cs) → refsInv s → refsInv s'.
Proof.
  intros Hp Hinv. destruct e as [d | src moves d | d | | |]; cbn in Hp.
  - apply result_fst in Hp; subst s'. apply startGame_refsInv.
  - destruct (rendered s src) as [l|] eqn:Hl; cbn in Hp; [| discriminate].
    destruct (handleDragStart s l src) as [s1 [ds|]] eqn:Hs1.
    2:{ apply result_fst in Hp; cbn in Hp; subst s'.
        unfold handleDragStart in Hs1.
        destruct (phase s), s; cbn in Hs1; try discriminate.
        all: by injection Hs1 as <-. }
    destruct (handleDragStart_refs _ _ _ _ _ Hs1)
      as (Hrefs & Hlim & Hpiece & Hsrc & _).
    assert (refsInv s1) as Hinv1.
    { destruct Hinv as [Hnd Hlt]. unfold refsInv. rewrite Hrefs, Hlim.
      split; [done |]. eapply Forall_impl; [exact Hlt |]. cbn. lia. }
    unfold handlePointerUp in Hp. rewrite Hsrc in Hp.
    destruct (dropPreview _) as [[x y]|].
    + apply result_fst in Hp; cbn [fst] in Hp; subst s'.
      by apply handlePlacePiece_refsInv.
    + destruct (isHoveringHold _).
      * destruct src as [i|].
        -- eapply handleHoldDrop_refsInv; [exact Hinv1 | | | exact Hp].
           ++ lia.
           ++ right. split.
              ** apply rendered_Index_lt in Hl.
                 destruct (handleDragStart_selection _ _ _ _ _ Hs1) as (-> & _).
                 done.
              ** rewrite Hrefs, Hpiece. intros Hin.
                 destruct Hinv as [_ Hlt]. rewrite Forall_forall in Hlt.
                 specialize (Hlt _ Hin). lia.
        -- apply result_fst in Hp; cbn in Hp; by subst s'.
      * apply result_fst in Hp; cbn in Hp; by subst s'.
  - unfold handleHoldButton in Hp.
    destruct (selectedPieceIndex s) as [i|].
    2:{ apply result_fst in Hp; cbn in Hp; by subst s'. }
    destruct (availablePieces s !! i) as [l|] eqn:Hl;
      cbn [mbind option_bind] in Hp; [| discriminate].
    eapply handleHoldDrop_refsInv; [exact Hinv | | by left | exact Hp].
    destruct Hinv as [_ Hlt]. rewrite Forall_forall in Hlt. apply Hlt.
    unfold liveRefs. apply elem_of_app. left.
    by eapply list_elem_of_lookup_2.
  - destruct (handleRotate s) as [s1|] eqn:Hr; cbn in Hp; [| discriminate].
    apply result_fst in Hp; cbn in Hp; subst s'.
    by eapply handleRotate_refsInv.
  - apply result_fst in Hp; cbn in Hp; subst s'.
    by apply handleRotateHold_refsInv.
  - apply result_fst in Hp; cbn in Hp; subst s'. by destruct s.
Qed.

Lemma reachable_refsInv s : reachable s → refsInv s.
Proof.
  induction 1 as [stored _ | s e s' cs _ IH Hp].
  - split; constructor.
  - eauto using perform_refsInv.
Qed.

End Refs.

(** ** Gestures *)

Section Gestures.
Context `{GameLogic}.

(** *** The drop target of a gesture *)




(** *** Events that leave the board and the score alone *)

Lemma handleHoldDrop_grid s piece src d s' cs :
  handleHoldDrop s piece src d = Some (s', cs) → grid s' = grid s.
Proof.
  unfold handleHoldDrop, spawnPieces, fireTimer, deref.
  destruct d as [[d1 d2] d3].
  destruct s as [hp ph g ap hd sel sc hs k c]; cbn.
  destruct src as [i|]; [| by intros [= <- <-]].
  destruct hd as [h|]; cbn.
  - destruct (arrayStore i h ap); cbn; [| discriminate]. by intros [= <- <-].
  - destruct (delete i ap) as [|a rest]; cbn.
    + destruct checkGameOver; by intros [= <- <-].
    + by intros [= <- <-].
Qed.

Lemma handleRotate_grid s s' : handleRotate s = Some s' → grid s' = grid s.
Proof.
  unfold handleRotate.
  destruct s as [hp ph g ap hd sel sc hs k c]; cbn.
  destruct sel as [i|]; [| by intros [= <-]].
  destruct (k <? COST_ROTATE); [by intros [= <-] |].
  destruct (ap !! i) as [l|]; cbn; [| discriminate]. by intros [= <-].
Qed.

Lemma handleRotateHold_grid s : grid (handleRotateHold s) = grid s.
Proof.
  unfold handleRotateHold.
  destruct s as [hp ph g ap hd sel sc hs k c]; cbn.
  destruct hd as [l|]; [| done]. by destruct (k <? COST_ROTATE).
Qed.

(** The state a gesture starts from differs from the render only in the
    store (the copy) and the selection. *)
Lemma handleDragStart_counters s l src s1 ds :
  handleDragStart s l src = (s1, Some ds) →
  score s1 = score s ∧ highScore s1 = highScore s ∧
  keys s1 = keys s ∧ combo s1 = combo s ∧ holdPiece s1 = holdPiece s.
Proof.
  unfold handleDragStart.
  destruct s as [hp ph g ap hd sel sc hs k c]; cbn.
  destruct ph; try discriminate. by intros [= <- <-].
Qed.

Lemma handleDragStart_None s l src s1 :
  handleDragStart s l src = (s1, None) → s1 = s.
Proof.
  unfold handleDragStart.
  destruct s as [hp ph g ap hd sel sc hs k c]; cbn.
  destruct ph; by intros [= <-].
Qed.

Lemma perform_Drag s src moves d s' cs :
  perform s (Drag src moves d) = Some (s', cs) →
  GestureOutcome s src moves d s' cs.
Proof.
  cbn. destruct (rendered s src) as [l|] eqn:Hl; cbn; [| discriminate].
  destruct (handleDragStart s l src) as [s1 [ds|]] eqn:Hs1.
  - destruct (handleDragStart_refs _ _ _ _ _ Hs1) as (_ & _ & _ & Hsrc & _).
    unfold handlePointerUp. rewrite Hsrc.
    destruct (dropPreview _) as [[x y]|] eqn:Hprev.
    + intros [= Hp]. by eapply gesture_placed.
    + destruct (isHoveringHold _) eqn:Hhov.
      * intros Hp. by eapply gesture_held.
      * intros [= <- <-]. by eapply gesture_cancelled.
  - intros [= <- <-]. apply handleDragStart_None in Hs1 as Heq. subst s1.
    apply gesture_ignored; try done.
    unfold handleDragStart in Hs1. intros Hph. rewrite Hph in Hs1.
    destruct s; discriminate.
Qed.

End Gestures.

(** ** One event, field by field *)

Section Events.
Context `{GameLogic}.


Lemma perform_quiet s e s' cs :
  perform s e = Some (s', cs) →
  (∀ d, e ≠ StartGame d) → (∀ src moves d, e ≠ Drag src moves d) →
  grid s' = grid s ∧ score s' = score s ∧
  highScore s' = highScore s ∧ combo s' = combo s.
Proof.
  intros Hp Hstart Hdrag. destruct e as [d | src moves d | d | | |].
  - by destruct (Hstart d).
  - by destruct (Hdrag src moves d).
  - cbn in Hp. unfold handleHoldButton in Hp.
    destruct (selectedPieceIndex s) as [i|]; [| by injection Hp as <- _].
    destruct (availablePieces s !! i) as [l|];
      cbn [mbind option_bind] in Hp; [| discriminate].
    destruct (handleHoldDrop_frame _ _ _ _ _ _ Hp) as (-> & -> & _ & -> & _).
    by rewrite (handleHoldDrop_grid _ _ _ _ _ _ Hp).
  - cbn in Hp.
    destruct (handleRotate s) as [s1|] eqn:Hr; cbn in Hp; [| discriminate].
    injection Hp as <- _.
    destruct (handleRotate_frame s s1 Hr) as (_ & _ & -> & -> & -> & _).
    by rewrite (handleRotate_grid _ _ Hr).
  - cbn in Hp. injection Hp as <- _.
    destruct (handleRotateHold_frame s) as (_ & _ & -> & -> & -> & _).
    by rewrite handleRotateHold_grid.
  - cbn in Hp. injection Hp as <- _. by destruct s.
Qed.


(** X2: apart from a new game (which resets them), an event that leaves
    fewer keys than it found is a rotation that was paid for: exactly
    [COST_ROTATE] keys are gone, there were at least that many, and the
    matrix of the selected pool piece (Flip button) or of the hold piece
    (hold rotation) is now the rotated one. *)
Theorem keys_leave_only_by_rotation s e s' cs :
  perform s e = Some (s', cs) →
  (∀ d, e ≠ StartGame d) →
  keys s' < keys s →
  keys s' = keys s - COST_ROTATE ∧ COST_ROTATE ≤ keys s ∧
  ((e = Rotate ∧
    ∃ i l, selectedPieceIndex s = Some i ∧ availablePieces s !! i = Some l ∧
           matrix (deref s' l) = rotateMatrix (matrix (deref s l))) ∨
   (e = RotateHold ∧
    ∃ l l', holdPiece s = Some l ∧ holdPiece s' = Some l' ∧
            matrix (deref s' l') = rotateMatrix (matrix (deref s l)))).
Proof.
  intros Hp Hne Hlt. destruct e as [d | src moves d | d | | |].
  - by destruct (Hne d).
  - exfalso. apply perform_Drag in Hp.
    destruct Hp as [Hph -> _ | l s1 ds x y Hl Hs1 Hprev Hplace
                   | l s1 ds Hl Hs1 _ _ Hdrop | l s1 ds Hl Hs1 _ _ -> _].
    + lia.
    + destruct (handleDragStart_counters _ _ _ _ _ Hs1) as (_ & _ & Hk & _).
      destruct (handlePlacePiece_counters s1 (piece ds) x y src d)
        as (_ & Hk' & _).
      rewrite <- Hplace in Hk'. cbn [fst] in Hk'. rewrite Hk in Hk'.
      destruct (Z.ltb_spec 0 (placedLines s1 (piece ds) x y)); lia.
    + destruct (handleDragStart_counters _ _ _ _ _ Hs1) as (_ & _ & Hk & _).
      destruct (handleHoldDrop_frame _ _ _ _ _ _ Hdrop) as (_ & _ & Hk' & _).
      lia.
    + destruct (handleDragStart_counters _ _ _ _ _ Hs1) as (_ & _ & Hk & _).
      lia.
  - exfalso. cbn in Hp. unfold handleHoldButton in Hp.
    destruct (selectedPieceIndex s) as [i|]; [| injection Hp as <- _; lia].
    destruct (availablePieces s !! i) as [l|];
      cbn [mbind option_bind] in Hp; [| discriminate].
    destruct (handleHoldDrop_frame _ _ _ _ _ _ Hp) as (_ & _ & Hk' & _). lia.
  - cbn in Hp.
    destruct (handleRotate s) as [s1|] eqn:Hr; cbn in Hp; [| discriminate].
    injection Hp as <- _.
    destruct (handleRotate_frame s s1 Hr) as (_ & _ & _ & _ & _ & Hk & _).
    destruct Hk as [Hk | [Hcost Hk]]; [lia |].
    split_and!; [done | done |]. left. split; [done |].
    destruct (selectedPieceIndex s) as [i|] eqn:Hsel.
    2:{ unfold handleRotate in Hr. rewrite Hsel in Hr. injection Hr as <-. lia. }
    destruct (availablePieces s !! i) as [l|] eqn:Hl.
    2:{ unfold handleRotate in Hr. rewrite Hsel, Hl in Hr.
        destruct (keys s <? COST_ROTATE); [injection Hr as <-; lia | discriminate]. }
    destruct (handleRotate_in_place s i l Hcost Hsel Hl)
      as (s2 & Hs2 & _ & _ & _ & Hm & _).
    rewrite Hr in Hs2. injection Hs2 as <-. eauto.
  - cbn in Hp. injection Hp as <- _.
    destruct (handleRotateHold_frame s) as (_ & _ & _ & _ & _ & Hk & _).
    destruct Hk as [Hk | [Hcost Hk]]; [lia |].
    split_and!; [done | done |]. right. split; [done |].
    destruct (holdPiece s) as [l|] eqn:Hh.
    2:{ unfold handleRotateHold in Hlt. rewrite Hh in Hlt. lia. }
    destruct (handleRotateHold_copies s l Hcost Hh) as (_ & _ & Hh' & Hm & _).
    eauto.
  - exfalso. cbn in Hp. injection Hp as <- _. destruct s; cbn in *. lia.
Qed.


(** X4: in a state whose score is at most its high score, every event
    leaves the high score at the larger of the old high score and the new
    score (a new game, which resets the score to 0, keeps it). *)
Theorem high_score_is_running_max s e s' cs :
  score s ≤ highScore s → 0 ≤ highScore s →
  perform s e = Some (s', cs) →
  highScore s' = Z.max (highScore s) (score s').
Proof.
  intros Hle Hnn Hp. destruct e as [d | src moves d | d | | |].
  2:{ apply perform_Drag in Hp.
      destruct Hp as [Hph -> _ | l1 s1 ds x1 y1 Hl Hs1 Hprev Hplace
                     | l1 s1 ds Hl Hs1 _ _ Hdrop | l1 s1 ds Hl Hs1 _ _ -> _].
      - lia.
      - destruct (handleDragStart_counters _ _ _ _ _ Hs1) as (_ & Hhs & _).
        destruct (handlePlacePiece_counters s1 (piece ds) x1 y1 src d)
          as (_ & _ & _ & Hmax & _).
        rewrite <- Hplace in Hmax. cbn [fst] in Hmax. by rewrite <- Hhs.
      - destruct (handleDragStart_counters _ _ _ _ _ Hs1) as (Hsc & Hhs & _).
        destruct (handleHoldDrop_frame _ _ _ _ _ _ Hdrop) as (-> & -> & _). lia.
      - destruct (handleDragStart_counters _ _ _ _ _ Hs1) as (Hsc & Hhs & _).
        lia. }
  1:{ cbn in Hp. injection Hp as Hp. apply (f_equal fst) in Hp. cbn in Hp.
      subst s'.
      destruct (startGame_fields s d) as (_ & -> & _ & _ & -> & _). lia. }
  all: destruct (perform_quiet _ _ _ _ Hp) as (_ & -> & -> & _);
    [discriminate | discriminate | lia].
Qed.

(** X5: no event removes a shape object, and the only object an event
    changes is the one in the selected pool slot, changed by a Flip that
    was paid for.  Every other handler (drag start, placement, hold,
    rotation of the hold piece, new game) works on copies or new
    objects. *)
Theorem objects_change_only_by_pool_rotation s e s' cs :
  perform s e = Some (s', cs) →
  (limit (heap s) ≤ limit (heap s'))%nat ∧
  ∀ l, (l < limit (heap s))%nat →
       deref s' l = deref s l ∨
       (e = Rotate ∧ COST_ROTATE ≤ keys s ∧
        ∃ i, selectedPieceIndex s = Some i ∧ availablePieces s !! i = Some l).
Proof.
  intros Hp.
  assert (e = Rotate ∨ e ≠ Rotate) as [-> | Hne]
    by (destruct e; first [by left | by right]).
  - cbn in Hp.
    destruct (handleRotate s) as [s1|] eqn:Hr; cbn in Hp; [| discriminate].
    injection Hp as <- _.
    destruct (handleRotate_store s s1 Hr) as [Hlim Hobj].
    split; [lia |]. intros l _.
    destruct (Hobj l) as [Hsame | (i & Hsel & Hl & Hk)]; eauto 6.
  - destruct (perform_heapExtends s e s' cs Hp Hne) as [Hlim Hobj].
    split; [done |]. intros l Hl. left. by apply Hobj.
Qed.

(** X6: in a session, a Flip of the selected pool piece leaves the
    pieces in the other pool slots and the hold piece as they were, and
    leaves the pool and the hold slot pointing at the same objects: no
    object sits in two slots, so the assignment to the selected piece's
    matrix is seen through no other slot. *)
Theorem rotation_touches_only_the_selected_piece s i s' :
  reachable s →
  selectedPieceIndex s = Some i →
  handleRotate s = Some s' →
  (∀ j l, j ≠ i → availablePieces s !! j = Some l → deref s' l = deref s l) ∧
  (∀ h, holdPiece s = Some h → deref s' h = deref s h) ∧
  availablePieces s' = availablePieces s ∧ holdPiece s' = holdPiece s.
Proof.
  intros Hreach Hsel Hr.
  destruct (reachable_refsInv s Hreach) as [Hnd _].
  destruct (handleRotate_store s s' Hr) as [_ Hobj].
  destruct (handleRotate_frame s s' Hr) as (Hpool & Hhold & _).
  unfold liveRefs in Hnd. apply NoDup_app in Hnd as (Hpnd & Hdisj & _).
  split_and!; [| | done | done].
  - intros j l Hne Hl.
    destruct (Hobj l) as [Hsame | (i' & Hsel' & Hl' & _)]; [done |].
    rewrite Hsel in Hsel'. injection Hsel' as <-.
    destruct Hne. by eapply NoDup_lookup.
  - intros h Hh.
    destruct (Hobj h) as [Hsame | (i' & _ & Hl' & _)]; [done |].
    destruct (Hdisj h); [by eapply list_elem_of_lookup_2 |].
    rewrite Hh. cbn. by apply list_elem_of_singleton.
Qed.

(** X7: [startGame] installs the empty board, an empty hold slot and a
    pool of the three drawn shapes, but the game-over evaluation its
    [spawnPieces] schedules is given the board and the hold piece of the
    render in which [startGame] was called: the new game starts over
    exactly when [checkGameOver] says so of the previous board. *)
Theorem startGame_checks_the_previous_board s d :
  let s' := (startGame s d).1 in
  let batch := [generateRandomShape d.1.1; generateRandomShape d.1.2;
                generateRandomShape d.2] in
  grid s' = createEmptyGrid ∧ holdPiece s' = None ∧
  deref s' <$> availablePieces s' = batch ∧
  (startGame s d).2 = [mkCheck (grid s) batch (deref s' <$> holdPiece s)] ∧
  phase s' = (if checkGameOver (grid s) batch (deref s' <$> holdPiece s)
              then gameover else playing).
Proof.
  intros s' batch. subst s' batch.
  unfold startGame, spawnPieces, fireTimer, deref. destruct d as [[d1 d2] d3].
  destruct s as [hp ph g ap hd sel sc hs k c]; cbn.
  unfold insert, fn_insert.
  repeat (case_decide; try lia).
  destruct checkGameOver eqn:Hover; cbn; unfold insert, fn_insert.
  all: repeat (case_decide; try lia).
  all: rewrite ?Hover; split_and!; reflexivity.
Qed.

(** X8: in a session a selected index always names a pool slot, so
    [availablePieces[selectedPieceIndex]] is never [undefined]: the Flip
    button does not throw, the Hold button has a piece to hold, and every
    event whose gesture starts on a rendered piece runs to an outcome. *)
Theorem selected_index_is_a_pool_slot s :
  reachable s →
  (∀ i, selectedPieceIndex s = Some i → is_Some (availablePieces s !! i)) ∧
  is_Some (handleRotate s) ∧
  (∀ d, is_Some (handleHoldButton s d)) ∧
  (∀ e, (∀ src moves d, e = Drag src moves d → is_Some (rendered s src)) →
        is_Some (perform s e)).
Proof.
  intros Hreach. split_and!.
  - intros i Hi. apply lookup_lt_is_Some_2.
    by apply (reachable_selection s Hreach).
  - by apply handleRotate_total.
  - intros d. apply (perform_total s (HoldButton d) Hreach). discriminate.
  - intros e He. by apply perform_total.
Qed.

End Events.

(** ** The drop preview *)

Lemma elem_of_concat_imap {A B} (f : nat → A → list B) (l : list A) b :
  b ∈ concat (imap f l) ↔ ∃ i a, l !! i = Some a ∧ b ∈ f i a.
Proof.
  revert f. induction l as [|a0 l IH]; intros f; cbn.
  - rewrite elem_of_nil. split; [done | by intros (i & a & ? & _)].
  - rewrite elem_of_app, IH. split.
    + intros [Hb | (i & a & Hi & Hb)]; [by exists 0%nat, a0 | by exists (S i), a].
    + intros ([|i] & a & Hi & Hb); [left; by injection Hi as -> | right; eauto].
Qed.

Lemma NoDup_concat_imap {A B} (f : nat → A → list B) (l : list A) :
  (∀ i a, l !! i = Some a → NoDup (f i a)) →
  (∀ i j a b x, l !! i = Some a → l !! j = Some b →
                x ∈ f i a → x ∈ f j b → i = j) →
  NoDup (concat (imap f l)).
Proof.
  revert f. induction l as [|a0 l IH]; intros f Hnd Hdisj; cbn.
  - constructor.
  - apply NoDup_app. split_and!.
    + by apply (Hnd 0%nat).
    + intros x Hx (i & a & Hi & Hin)%elem_of_concat_imap.
      by specialize (Hdisj 0%nat (S i) a0 a x eq_refl Hi Hx Hin).
    + apply IH.
      * intros i a Hi. by apply (Hnd (S i)).
      * intros i j a b x Hi Hj Hx Hy.
        by specialize (Hdisj (S i) (S j) a b x Hi Hj Hx Hy) as [= ->].
Qed.

Lemma length_row_cells {B} (g : nat → B) (row : list Z) :
  length (concat (imap (λ x v, if decide (v = 1) then [g x] else []) row))
  = length (filter (λ v, v = 1) row).
Proof.
  revert g. induction row as [|v row IH]; intros g; cbn; [done |].
  rewrite length_app. specialize (IH (g ∘ S)).
  unfold compose in *. cbn in *. rewrite IH.
  by destruct (decide (v = 1)).
Qed.

Lemma length_matrix_cells {B} (g : nat → nat → B) (m : Matrix) :
  length (concat (imap (λ y row,
            concat (imap (λ x v, if decide (v = 1) then [g y x] else []) row)) m))
  = length (filter (λ v, v = 1) (concat m)).
Proof.
  revert g. induction m as [|row m IH]; intros g; cbn; [done |].
  rewrite length_app, filter_app, length_app.
  rewrite (length_row_cells (g 0%nat)). f_equal.
  specialize (IH (g ∘ S)). unfold compose in *. cbn in *. exact IH.
Qed.

Lemma getPreviewCells_elem s ds px py c :
  c ∈ getPreviewCells s (Some ds) (Some (px, py)) ↔
  ∃ x y row, matrix (deref s (piece ds)) !! y = Some row ∧ row !! x = Some 1 ∧
             c = (px + Z.of_nat x, py + Z.of_nat y).
Proof.
  unfold getPreviewCells. rewrite elem_of_concat_imap. split.
  - intros (y & row & Hrow & (x & v & Hv & Hc)%elem_of_concat_imap).
    destruct (decide (v = 1)) as [-> | _]; [| by apply elem_of_nil in Hc].
    apply list_elem_of_singleton in Hc. eauto 6.
  - intros (x & y & row & Hrow & Hv & ->).
    exists y, row. split; [done |]. apply elem_of_concat_imap.
    exists x, 1. split; [done |]. cbn. by apply list_elem_of_singleton.
Qed.

Lemma getPreviewCells_NoDup s ds px py :
  NoDup (getPreviewCells s (Some ds) (Some (px, py))).
Proof.
  unfold getPreviewCells. apply NoDup_concat_imap.
  - intros y row _. apply NoDup_concat_imap.
    + intros x v _. destruct (decide (v = 1)); [apply NoDup_singleton | constructor].
    + intros x x' v v' c _ _ Hc Hc'.
      destruct (decide (v = 1)); [| by apply elem_of_nil in Hc].
      destruct (decide (v' = 1)); [| by apply elem_of_nil in Hc'].
      apply list_elem_of_singleton in Hc, Hc'. subst c.
      injection Hc' as Hx. lia.
  - intros y y' row row' c _ _
      (x & v & _ & Hc)%elem_of_concat_imap (x' & v' & _ & Hc')%elem_of_concat_imap.
    destruct (decide (v = 1)); [| by apply elem_of_nil in Hc].
    destruct (decide (v' = 1)); [| by apply elem_of_nil in Hc'].
    apply list_elem_of_singleton in Hc, Hc'. subst c.
    injection Hc' as _ Hy. lia.
Qed.

(** X9: [getPreviewCells] returns one cell per filled cell of the
    dragged piece, each exactly once: the cells are the translates by the
    preview origin of the positions holding 1, their number is the filled
    cell count, and there are none without a drag or without a preview. *)
Theorem preview_cells_are_the_filled_cells s ds px py :
  let cells := getPreviewCells s (Some ds) (Some (px, py)) in
  Z.of_nat (length cells) = filledCellCount (matrix (deref s (piece ds))) ∧
  NoDup cells ∧
  (∀ c, c ∈ cells ↔
        ∃ x y row, matrix (deref s (piece ds)) !! y = Some row ∧
                   row !! x = Some 1 ∧
                   c = (px + Z.of_nat x, py + Z.of_nat y)) ∧
  getPreviewCells s None (Some (px, py)) = [] ∧
  getPreviewCells s (Some ds) None = [].
Proof.
  intros cells. subst cells. split_and!.
  - unfold getPreviewCells, filledCellCount.
    by rewrite (length_matrix_cells (λ y x, (px + Z.of_nat x, py + Z.of_nat y))).
  - apply getPreviewCells_NoDup.
  - intros c. apply getPreviewCells_elem.
  - reflexivity.
  - reflexivity.
Qed.

(** ** The rendered board *)

Lemma cellOfIndex_inj i j : cellOfIndex i = cellOfIndex j → i = j.
Proof.
  unfold cellOfIndex. change (Z.to_nat GRID_SIZE) with 8%nat.
  intros Heq.
  assert (i mod 8 = j mod 8 ∧ i / 8 = j / 8)%nat as [Hm Hd]
    by (split; apply Nat2Z.inj; congruence).
  rewrite (Nat.div_mod_eq i 8), (Nat.div_mod_eq j 8). by rewrite Hm, Hd.
Qed.

Lemma cellOfIndex_Inj : Inj (=) (=) cellOfIndex.
Proof. intros i j. apply cellOfIndex_inj. Qed.

Lemma row_major_index (x y : nat) :
  (x < 8)%nat → ((y * 8 + x) mod 8 = x ∧ (y * 8 + x) / 8 = y)%nat.
Proof.
  intros Hx. split.
  - rewrite Nat.add_comm, Nat.Div0.mod_add. by apply Nat.mod_small.
  - rewrite Nat.div_add_l, Nat.div_small by lia. lia.
Qed.

Lemma cellOfIndex_at (x y : nat) :
  (x < 8)%nat → cellOfIndex (y * 8 + x) = (Z.of_nat x, Z.of_nat y).
Proof.
  intros Hx. unfold cellOfIndex. change (Z.to_nat GRID_SIZE) with 8%nat.
  by destruct (row_major_index x y Hx) as [-> ->].
Qed.

Lemma isPreview_spec (cells : list (Z * Z)) (c : Z * Z) :
  existsb (λ p, (p.1 =? c.1) && (p.2 =? c.2)) cells = true ↔ c ∈ cells.
Proof.
  rewrite existsb_exists. split.
  - intros ([p1 p2] & Hin & Heq). apply list_elem_of_In.
    apply andb_prop in Heq as [?%Z.eqb_eq ?%Z.eqb_eq]. cbn in *.
    destruct c; cbn in *. by subst.
  - intros Hin. exists c. split; [by apply list_elem_of_In |].
    by rewrite !Z.eqb_refl.
Qed.

(** The render throws exactly when one of the first eight rows is
    missing. *)
Lemma boardCells_is_Some s cells :
  is_Some (boardCells s cells) ↔ (8 ≤ length (grid s))%nat.
Proof.
  unfold boardCells. rewrite mapM_is_Some.
  change (Z.to_nat (GRID_SIZE * GRID_SIZE)) with 64%nat.
  change (Z.to_nat GRID_SIZE) with 8%nat.
  rewrite Forall_forall. split.
  - intros Hall.
    destruct (Hall 56%nat) as [v Hv]; [apply elem_of_seq; lia |].
    unfold compose in Hv. change (56 / 8)%nat with 7%nat in Hv.
    match type of Hv with
    | ?o ≫= _ = _ => destruct o as [row|] eqn:Hrow
    end; [| discriminate].
    apply lookup_lt_Some in Hrow. lia.
  - intros Hlen i Hi%elem_of_seq. unfold compose.
    assert (i / 8 < 8)%nat by (apply Nat.Div0.div_lt_upper_bound; lia).
    cbv zeta.
    match goal with
    | |- is_Some (?o ≫= _) => destruct o as [row|] eqn:Hrow
    end; [by eexists |].
    apply lookup_ge_None in Hrow. lia.
Qed.

Lemma boardCells_Some s cells board :
  boardCells s cells = Some board →
  Forall2 (λ i v, ∃ row, grid s !! (i / 8)%nat = Some row ∧
                         v = mkCell (row !! (i mod 8)%nat)
                               (bool_decide (cellOfIndex i ∈ cells)))
          (seq 0 64) board.
Proof.
  unfold boardCells. intros Hb%mapM_Some.
  change (Z.to_nat (GRID_SIZE * GRID_SIZE)) with 64%nat in Hb.
  eapply Forall2_impl; [exact Hb |].
  intros i v Hv. cbn in Hv. change (Z.to_nat GRID_SIZE) with 8%nat in Hv.
  match type of Hv with
  | ?o ≫= _ = _ => destruct o as [row|] eqn:Hrow
  end; cbn in Hv; [| discriminate].
  injection Hv as <-. exists row. split; [done |]. f_equal.
  apply eq_true_iff_eq.
  rewrite (isPreview_spec cells (cellOfIndex i)), bool_decide_eq_true.
  unfold cellOfIndex. by change (Z.to_nat GRID_SIZE) with 8%nat.
Qed.

Lemma length_filter_Forall2 {A B} (P : A → Prop) (Q : B → Prop)
    `{∀ a, Decision (P a)} `{∀ b, Decision (Q b)} (l : list A) (k : list B) :
  Forall2 (λ a b, P a ↔ Q b) l k →
  length (filter P l) = length (filter Q k).
Proof.
  induction 1 as [|a b l k Hab _ IH]; [done |].
  destruct (decide (P a)) as [Hp | Hp].
  - rewrite !filter_cons_True by tauto. cbn. by rewrite IH.
  - rewrite !filter_cons_False by tauto. done.
Qed.

Lemma highlighted_count s (cells : list (Z * Z)) board :
  boardCells s cells = Some board →
  NoDup cells →
  (∀ c, c ∈ cells → 0 ≤ c.1 < GRID_SIZE ∧ 0 ≤ c.2 < GRID_SIZE) →
  length (filter (λ v, isValidDrop v = true) board) = length cells.
Proof.
  intros Hb Hnd Hin. apply boardCells_Some in Hb.
  rewrite <- (length_filter_Forall2 (λ i, cellOfIndex i ∈ cells) _ (seq 0 64)).
  2:{ eapply Forall2_impl; [exact Hb |].
      intros i v (row & _ & ->). cbn. by rewrite bool_decide_eq_true. }
  rewrite <- (length_fmap cellOfIndex).
  apply Permutation_length, NoDup_Permutation; [| done |].
  - apply (@NoDup_fmap_2 _ _ cellOfIndex cellOfIndex_Inj).
    apply NoDup_filter, NoDup_seq.
  - intros c. rewrite list_elem_of_fmap. split.
    + by intros (i & -> & [Hi _]%list_elem_of_filter).
    + intros Hc. destruct (Hin c Hc) as [Hx Hy]. unfold GRID_SIZE in *.
      exists (Z.to_nat c.2 * 8 + Z.to_nat c.1)%nat.
      assert (cellOfIndex (Z.to_nat c.2 * 8 + Z.to_nat c.1) = c) as Hcell.
      { rewrite cellOfIndex_at by lia. destruct c; cbn in *. f_equal; lia. }
      split; [done |]. apply list_elem_of_filter. split.
      * by rewrite Hcell.
      * apply elem_of_seq. lia.
Qed.

(** X10: the board render throws exactly when one of the first eight
    rows of the grid is missing; otherwise it has 64 cells, the cell at
    index [y * 8 + x] shows [grid[y][x]] and is highlighted exactly when
    [(x, y)] is a preview cell, and when all preview cells are on the
    board the number of highlighted cells is the filled cell count of the
    dragged piece. *)
Theorem board_highlights_the_preview s ds px py :
  let cells := getPreviewCells s (Some ds) (Some (px, py)) in
  (is_Some (boardCells s cells) ↔ (8 ≤ length (grid s))%nat) ∧
  ∀ board, boardCells s cells = Some board →
    length board = 64%nat ∧
    (∀ x y : nat, (x < 8)%nat → (y < 8)%nat →
       ∃ v row, board !! (y * 8 + x)%nat = Some v ∧
                grid s !! y = Some row ∧ cellColor v = row !! x ∧
                (isValidDrop v = true ↔ (Z.of_nat x, Z.of_nat y) ∈ cells)) ∧
    ((∀ c, c ∈ cells → 0 ≤ c.1 < GRID_SIZE ∧ 0 ≤ c.2 < GRID_SIZE) →
     Z.of_nat (length (filter (λ v, isValidDrop v = true) board))
     = filledCellCount (matrix (deref s (piece ds)))).
Proof.
  intros cells. split; [apply boardCells_is_Some |].
  intros board Hb. pose proof (boardCells_Some _ _ _ Hb) as Hall.
  split_and!.
  - rewrite <- (Forall2_length _ _ _ Hall). by rewrite length_seq.
  - intros x y Hx Hy.
    assert (seq 0 64 !! (y * 8 + x)%nat = Some (y * 8 + x)%nat) as Hi
      by (apply (lookup_seq_lt 0 64); lia).
    destruct (Forall2_lookup_l _ _ _ _ _ Hall Hi)
      as (v & Hv & row & Hrow & ->).
    rewrite cellOfIndex_at in * by done.
    destruct (row_major_index x y Hx) as [Hm Hd]. rewrite Hm, Hd in *.
    exists (mkCell (row !! x) (bool_decide ((Z.of_nat x, Z.of_nat y) ∈ cells))), row.
    split_and!; [done | done | done |]. cbn. apply bool_decide_eq_true.
  - intros Hin.
    rewrite (highlighted_count s cells board Hb);
      [| apply getPreviewCells_NoDup | done].
    subst cells. unfold getPreviewCells, filledCellCount.
    by rewrite (length_matrix_cells (λ y x, (px + Z.of_nat x, py + Z.of_nat y))).
Qed.

(** ** The phase of the game *)

Section Phases.
Context `{GameLogic}.

(** *** The phase and the game-over evaluations *)

Lemma startGame_phase s d :
  phaseOutcome playing (startGame s d).1 (startGame s d).2.
Proof.
  unfold startGame, spawnPieces, fireTimer, phaseOutcome, verdict.
  destruct d as [[d1 d2] d3].
  destruct s as [hp ph g ap hd sel sc hs k c]; cbn.
  right. eexists. split; [reflexivity |]. cbn.
  by destruct checkGameOver.
Qed.

Lemma handlePlacePiece_phase s piece x y src d :
  phaseOutcome (phase s) (handlePlacePiece s piece x y src d).1
    (handlePlacePiece s piece x y src d).2.
Proof.
  unfold handlePlacePiece, spawnPieces, fireTimer, phaseOutcome, verdict.
  destruct d as [[d1 d2] d3].
  destruct s as [hp ph g ap hd sel sc hs k c]; cbn.
  destruct (0 <? _); cbn; destruct (hs <? _); cbn;
    (destruct src as [i|]; cbn; [| by left]).
  all: destruct (delete i ap) as [|a rest]; cbn.
  all: right; eexists; split; [reflexivity |]; cbn.
  all: by destruct checkGameOver.
Qed.

Lemma handleHoldDrop_phase s piece src d s' cs :
  handleHoldDrop s piece src d = Some (s', cs) → phaseOutcome (phase s) s' cs.
Proof.
  unfold handleHoldDrop, spawnPieces, fireTimer, phaseOutcome, verdict.
  destruct d as [[d1 d2] d3].
  destruct s as [hp ph g ap hd sel sc hs k c]; cbn.
  destruct src as [i|]; [| intros [= <- <-]; by left].
  destruct hd as [h|]; cbn.
  - destruct (arrayStore i h ap); cbn; [| discriminate].
    intros [= <- <-]. by left.
  - destruct (delete i ap) as [|a rest]; cbn.
    + destruct checkGameOver eqn:Hv; intros [= <- <-]; right;
        (eexists; split; [reflexivity |]); cbn; by rewrite Hv.
    + intros [= <- <-]. by left.
Qed.

Lemma handleRotate_phase s s' : handleRotate s = Some s' → phase s' = phase s.
Proof.
  unfold handleRotate.
  destruct s as [hp ph g ap hd sel sc hs k c]; cbn.
  destruct sel as [i|]; [| by intros [= <-]].
  destruct (k <? COST_ROTATE); [by intros [= <-] |].
  destruct (ap !! i) as [l|]; cbn; [| discriminate]. by intros [= <-].
Qed.

Lemma handleRotateHold_phase s : phase (handleRotateHold s) = phase s.
Proof.
  unfold handleRotateHold.
  destruct s as [hp ph g ap hd sel sc hs k c]; cbn.
  destruct hd as [l|]; [| done]. by destruct (k <? COST_ROTATE).
Qed.

Lemma perform_phase s e s' cs :
  perform s e = Some (s', cs) →
  phaseOutcome (phase s) s' cs ∨
  (∃ d, e = StartGame d ∧ phaseOutcome playing s' cs) ∨
  (e = BackToMenu ∧ cs = [] ∧ phase s' = start).
Proof.
  intros Hp. destruct e as [d | src moves d | d | | |].
  - right; left. exists d. split; [done |]. cbn in Hp. injection Hp as Hp.
    pose proof (startGame_phase s d) as Hph. by rewrite Hp in Hph.
  - left. apply perform_Drag in Hp.
    destruct Hp as [Hph -> -> | l s1 ds x y Hl Hs1 Hprev Hplace
                   | l s1 ds Hl Hs1 _ _ Hdrop | l s1 ds Hl Hs1 _ _ -> ->].
    + by left.
    + destruct (handleDragStart_refs _ _ _ _ _ Hs1)
        as (_ & _ & _ & _ & _ & _ & -> & Hph1).
      pose proof (handlePlacePiece_phase s1 (piece ds) x y src d) as Hph.
      by rewrite <- Hplace, Hph1 in Hph.
    + destruct (handleDragStart_refs _ _ _ _ _ Hs1)
        as (_ & _ & _ & _ & _ & _ & -> & Hph1).
      rewrite <- Hph1. by eapply handleHoldDrop_phase.
    + destruct (handleDragStart_refs _ _ _ _ _ Hs1)
        as (_ & _ & _ & _ & _ & _ & -> & Hph1). by left.
  - left. cbn in Hp. unfold handleHoldButton in Hp.
    destruct (selectedPieceIndex s) as [i|]; [| injection Hp as <- <-; by left].
    destruct (availablePieces s !! i) as [l|];
      cbn [mbind option_bind] in Hp; [| discriminate].
    by eapply handleHoldDrop_phase.
  - left. cbn in Hp.
    destruct (handleRotate s) as [s1|] eqn:Hr; cbn in Hp; [| discriminate].
    injection Hp as <- <-. left. split; [done |]. by apply handleRotate_phase.
  - left. cbn in Hp. injection Hp as <- <-. left.
    split; [done |]. apply handleRotateHold_phase.
  - right; right. cbn in Hp. injection Hp as <- <-. by destruct s.
Qed.

(** X11: an event makes at most one game-over evaluation; when it makes
    one that [checkGameOver] answers with true the game is over after
    the event, and a game that is over after the event was over before it
    or was ended by such an evaluation. *)
Theorem game_over_follows_the_check s e s' cs :
  perform s e = Some (s', cs) →
  (length cs ≤ 1)%nat ∧
  (∀ c, c ∈ cs →
        checkGameOver (checkedGrid c) (checkedPieces c) (checkedHold c) = true →
        phase s' = gameover) ∧
  (phase s' = gameover →
   phase s = gameover ∨
   ∃ c, c ∈ cs ∧
        checkGameOver (checkedGrid c) (checkedPieces c) (checkedHold c) = true).
Proof.
  intros Hp.
  assert (∃ base, (base = gameover → phase s = gameover) ∧ phaseOutcome base s' cs)
    as (base & Hbase & Hout).
  { destruct (perform_phase s e s' cs Hp)
      as [Hout | [(d & _ & Hout) | (_ & -> & Hph)]].
    - by exists (phase s).
    - by exists playing.
    - exists start. split; [done |]. by left. }
  destruct Hout as [[-> Hph] | (c & -> & Hph)].
  - split_and!; [cbn; lia | by intros c ?%elem_of_nil |].
    rewrite Hph. auto.
  - unfold verdict in Hph. split_and!; [cbn; lia | |].
    + intros c' ->%list_elem_of_singleton Hv. by rewrite Hph, Hv.
    + intros Hover. rewrite Hph in Hover.
      destruct checkGameOver eqn:Hv; [| auto].
      right. exists c. split; [by apply list_elem_of_singleton | done].
Qed.

(** *** Shapes stay binary *)

Lemma perform_heapInv s e s' cs :
  (∀ m, binary m → binary (rotateMatrix m)) →
  perform s e = Some (s', cs) → heapInv s → heapInv s'.
Proof.
  intros Hrot Hp Hh. destruct e as [d | src moves d | d | | |].
  - cbn in Hp. injection Hp as Hp. apply (f_equal fst) in Hp. cbn in Hp. subst s'.
    by apply startGame_fields.
  - apply perform_Drag in Hp.
    destruct Hp as [Hph -> _ | l s1 ds x y Hl Hs1 Hprev Hplace
                   | l s1 ds Hl Hs1 _ _ Hdrop | l s1 ds Hl Hs1 _ _ -> _];
      [done | | |].
    all: destruct (handleDragStart_refs _ _ _ _ _ Hs1)
           as (_ & _ & _ & _ & _ & _ & Hph & _).
    all: destruct (handleDragStart_playing s l src Hph)
           as (s1' & Hs1' & _ & _ & _ & _ & _ & _ & Hh1).
    all: rewrite Hs1 in Hs1'; injection Hs1' as <-; specialize (Hh1 Hh).
    + apply (f_equal fst) in Hplace. cbn in Hplace. subst s'.
      by apply handlePlacePiece_heapInv.
    + by apply (handleHoldDrop_frame _ _ _ _ _ _ Hdrop).
    + done.
  - cbn in Hp. unfold handleHoldButton in Hp.
    destruct (selectedPieceIndex s) as [i|]; [| by injection Hp as <- _].
    destruct (availablePieces s !! i) as [l|];
      cbn [mbind option_bind] in Hp; [| discriminate].
    by apply (handleHoldDrop_frame _ _ _ _ _ _ Hp).
  - cbn in Hp.
    destruct (handleRotate s) as [s1|] eqn:Hr; cbn in Hp; [| discriminate].
    injection Hp as <- _. by apply (handleRotate_frame s s1 Hr).
  - cbn in Hp. injection Hp as <- _. by apply (handleRotateHold_frame s).
  - cbn in Hp. injection Hp as <- _. by destruct s.
Qed.

(** X12: when [rotateMatrix] maps binary matrices to binary matrices,
    every shape object of a session holds a binary matrix, so the sum the
    placement score is computed from is the number of filled cells. *)
Theorem session_shapes_stay_binary s :
  (∀ m, binary m → binary (rotateMatrix m)) →
  reachable s →
  ∀ l, binary (matrix (deref s l)) ∧
       blockCount (matrix (deref s l)) = filledCellCount (matrix (deref s l)).
Proof.
  intros Hrot Hreach.
  assert (heapInv s) as Hh.
  { induction Hreach as [stored _ | s e s' cs _ IH Hp].
    - intros l. constructor.
    - eauto using perform_heapInv. }
  intros l. split; [apply Hh | apply blockCount_binary, Hh].
Qed.

End Phases.

(** ** Pieces are conserved *)

Section Pieces.
Context `{GameLogic}.





(** X15: when the one remaining pool piece is moved into an empty hold
    slot, the pool is refilled and the one game-over evaluation is given
    the new batch with an empty hold slot, although the hold slot now
    holds the moved piece: the piece just held is not a candidate of that
    evaluation. *)
Theorem hold_refill_check_misses_the_held_piece s piece i d :
  holdPiece s = None →
  delete i (availablePieces s) = [] →
  ∃ s', handleHoldDrop s piece (Index i) d
          = Some (s', [mkCheck (grid s) (batchOf d) None]) ∧
        holdPiece s' = Some piece ∧
        deref s' <$> availablePieces s' = batchOf d.
Proof.
  intros Hh Hrest. unfold handleHoldDrop, spawnPieces, fireTimer, batchOf, deref.
  rewrite Hh, Hrest. destruct d as [[d1 d2] d3].
  destruct s as [hp ph g ap hd sel sc hs k c]; cbn.
  unfold insert, fn_insert. repeat (case_decide; try lia).
  destruct checkGameOver; eexists; (split_and!; [reflexivity | reflexivity |]);
    cbn; unfold insert, fn_insert; repeat (case_decide; try lia); reflexivity.
Qed.

End Pieces.

(** ** The further properties on the sample session *)

Lemma selectedState_reachable : @reachable refLogic selectedState.
Proof.
  apply (@run_reachable refLogic (initialState None)
           [StartGame firstBatch; Drag (Index 0) [] nextBatch]).
  - by apply reachable_mount.
  - vm_compute. reflexivity.
Qed.


Lemma keys_leave_only_by_rotation_witness :
  let s' := (default (selectedState, [])
               (@perform refLogic selectedState Rotate)).1 in
  keys s' = keys selectedState - COST_ROTATE.
Proof.
  intros s'.
  pose (r := default (selectedState, []) (@perform refLogic selectedState Rotate)).
  assert (@perform refLogic selectedState Rotate = Some (r.1, r.2)) as Hp.
  { vm_compute. reflexivity. }
  assert (keys r.1 < keys selectedState) as Hlt.
  { vm_compute. reflexivity. }
  destruct (@keys_leave_only_by_rotation refLogic selectedState Rotate r.1 r.2
              Hp ltac:(discriminate) Hlt) as [Hk _].
  exact Hk.
Defined.


Lemma high_score_is_running_max_witness :
  let e := Drag (Index 0) [atCell 0 0] nextBatch in
  let s' := (default (lastPieceState, [])
               (@perform refLogic lastPieceState e)).1 in
  highScore s' = Z.max (highScore lastPieceState) (score s').
Proof.
  intros e s'.
  pose (r := default (lastPieceState, []) (@perform refLogic lastPieceState e)).
  assert (@perform refLogic lastPieceState e = Some (r.1, r.2)) as Hp.
  { vm_compute. reflexivity. }
  apply (@high_score_is_running_max refLogic lastPieceState e r.1 r.2);
    [vm_compute; discriminate | vm_compute; discriminate | exact Hp].
Defined.

Lemma objects_change_only_by_pool_rotation_witness :
  let s' := (default (selectedState, [])
               (@perform refLogic selectedState Rotate)).1 in
  (limit (heap selectedState) ≤ limit (heap s'))%nat.
Proof.
  intros s'.
  pose (r := default (selectedState, []) (@perform refLogic selectedState Rotate)).
  assert (@perform refLogic selectedState Rotate = Some (r.1, r.2)) as Hp.
  { vm_compute. reflexivity. }
  destruct (@objects_change_only_by_pool_rotation refLogic selectedState Rotate
              r.1 r.2 Hp) as [Hlim _].
  exact Hlim.
Defined.

Lemma rotation_touches_only_the_selected_piece_witness :
  let s' := default selectedState (@handleRotate refLogic selectedState) in
  deref s' 1%nat = deref selectedState 1%nat.
Proof.
  intros s'.
  assert (@handleRotate refLogic selectedState = Some s') as Hr.
  { vm_compute. reflexivity. }
  assert (selectedPieceIndex selectedState = Some 0%nat) as Hsel.
  { vm_compute. reflexivity. }
  destruct (@rotation_touches_only_the_selected_piece refLogic selectedState
              0%nat s' selectedState_reachable Hsel Hr) as [Hother _].
  apply (Hother 1%nat 1%nat); [discriminate | vm_compute; reflexivity].
Defined.

Lemma selected_index_is_a_pool_slot_witness :
  is_Some (@handleRotate refLogic lastPieceState).
Proof.
  destruct (@selected_index_is_a_pool_slot refLogic lastPieceState
              lastPieceState_reachable) as (_ & Hr & _).
  exact Hr.
Defined.

Lemma board_highlights_the_preview_witness :
  let ds := mkDrag 2%nat (Index 0) in
  let cells := getPreviewCells lastPieceState (Some ds) (Some (3, 4)) in
  ∃ board, boardCells lastPieceState cells = Some board ∧
    Z.of_nat (length (filter (λ v, isValidDrop v = true) board))
    = filledCellCount (matrix (deref lastPieceState 2%nat)).
Proof.
  intros ds cells.
  pose proof (board_highlights_the_preview lastPieceState ds 3 4) as Hb.
  cbv zeta in Hb. destruct Hb as [Hsome Hboard].
  destruct (proj2 Hsome) as [board Hbd]; [vm_compute; lia |].
  exists board. split; [exact Hbd |].
  destruct (Hboard board Hbd) as (_ & _ & Hcount).
  apply Hcount. intros c Hc.
  assert (getPreviewCells lastPieceState (Some ds) (Some (3, 4)) = [(3, 4)])
    as Heq by (vm_compute; reflexivity).
  rewrite Heq in Hc. apply list_elem_of_singleton in Hc. subst c.
  cbn. unfold GRID_SIZE. lia.
Defined.

Lemma game_over_follows_the_check_witness :
  let e := Drag (Index 0) [atCell 0 0] nextBatch in
  let cs := (default (lastPieceState, [])
               (@perform refLogic lastPieceState e)).2 in
  (length cs ≤ 1)%nat.
Proof.
  intros e cs.
  pose (r := default (lastPieceState, []) (@perform refLogic lastPieceState e)).
  assert (@perform refLogic lastPieceState e = Some (r.1, r.2)) as Hp.
  { vm_compute. reflexivity. }
  destruct (@game_over_follows_the_check refLogic lastPieceState e r.1 r.2 Hp)
    as [Hlen _].
  exact Hlen.
Defined.

Lemma session_shapes_stay_binary_witness :
  binary (matrix (deref lastPieceState 2%nat)).
Proof.
  destruct (@session_shapes_stay_binary refLogic lastPieceState rotate_binary
              lastPieceState_reachable 2%nat) as [Hb _].
  exact Hb.
Defined.



Lemma hold_refill_check_misses_the_held_piece_witness :
  ∃ s', @handleHoldDrop refLogic lastPieceState 2%nat (Index 0) nextBatch
          = Some (s', [mkCheck (grid lastPieceState) (batchOf nextBatch) None]) ∧
        holdPiece s' = Some 2%nat.
Proof.
  assert (holdPiece lastPieceState = None) as Hh.
  { vm_compute. reflexivity. }
  assert (delete 0%nat (availablePieces lastPieceState) = []) as Hrest.
  { vm_compute. reflexivity. }
  destruct (@hold_refill_check_misses_the_held_piece refLogic lastPieceState
              2%nat 0%nat nextBatch Hh Hrest) as (s' & Hs' & Hheld & _).
  exists s'. split; [exact Hs' | exact Hheld].
Defined.
